(** * A verified model of the Merkle tree of [src/lib/index.js]

    The JavaScript class [MerkleTree] is embedded as a small state-and-error
    monad over a store of arrays: JavaScript arrays are mutable and are passed
    by reference, and [getNextLayer] pads its argument in place, so that the
    arrays kept in [_layers] and [_elements] are seen through the store and
    not as fresh values.  Buffers are never mutated by the code and are
    modelled by value, as lists of bytes. *)

From Stdlib Require Import ZArith NArith List Lia Bool.
From Stdlib Require Import Strings.String Strings.Ascii Strings.Byte.
From stdpp Require Import base option list sorting gmap strings.

Set Default Goal Selector "!".

(** ** Buffers *)

Definition Buffer : Type := list byte.

#[global] Instance byte_eq_decision : EqDecision byte := Byte.byte_eq_dec.

(** [const EMPTY = Buffer.from([])] *)
Definition EMPTY : Buffer := [].

(** ** SHA3-256, the digest behind [new SHA3(256)]

    The package [sha3] is an external dependency of the program.  The
    development is parametric in the digest (see the section [Tree] below);
    this module gives the FIPS 202 function itself, so that the program can
    be run on concrete inputs. *)
Module Sha3.

Local Open Scope Z_scope.

Definition mask64 : Z := Z.ones 64.

Definition rotl64 (w : Z) (n : Z) : Z :=
  Z.land (Z.lor (Z.shiftl w n) (Z.shiftr w (64 - n))) mask64.

(** The 25 lanes of the state, lane (x, y) at position x + 5y. *)
Definition lane (s : list Z) (x y : nat) : Z :=
  nth ((x mod 5) + 5 * (y mod 5))%nat s 0.

Definition rotation_offsets : list Z :=
  [  0;  1; 62; 28; 27;
    36; 44;  6; 55; 20;
     3; 10; 43; 25; 39;
    41; 45; 15; 21;  8;
    18;  2; 61; 56; 14 ].

Definition round_constants : list Z :=
  [ 0x0000000000000001; 0x0000000000008082; 0x800000000000808A;
    0x8000000080008000; 0x000000000000808B; 0x0000000080000001;
    0x8000000080008081; 0x8000000000008009; 0x000000000000008A;
    0x0000000000000088; 0x0000000080008009; 0x000000008000000A;
    0x000000008000808B; 0x800000000000008B; 0x8000000000008089;
    0x8000000000008003; 0x8000000000008002; 0x8000000000000080;
    0x000000000000800A; 0x800000008000000A; 0x8000000080008081;
    0x8000000000008080; 0x0000000080000001; 0x8000000080008008 ].

Definition positions : list nat := seq 0 25.

Definition theta (s : list Z) : list Z :=
  let C := map (fun x => fold_left Z.lxor (map (lane s x) (seq 0 5)) 0) (seq 0 5) in
  let c x := nth (x mod 5)%nat C 0 in
  let D := map (fun x => Z.lxor (c (x + 4)%nat) (rotl64 (c (x + 1)%nat) 1)) (seq 0 5) in
  map (fun i => Z.lxor (nth i s 0) (nth (i mod 5)%nat D 0)) positions.

(** B[y][2x+3y] = rot(A[x][y], r[x][y]); read backwards, the lane at
    (X, Y) comes from (x, y) = (X + 3Y, X). *)
Definition rho_pi (s : list Z) : list Z :=
  map (fun i =>
         let X := (i mod 5)%nat in
         let Y := (i / 5)%nat in
         let x := ((X + 3 * Y) mod 5)%nat in
         let y := X in
         rotl64 (lane s x y) (nth (x + 5 * y)%nat rotation_offsets 0))
      positions.

Definition chi (s : list Z) : list Z :=
  map (fun i =>
         let x := (i mod 5)%nat in
         let y := (i / 5)%nat in
         Z.lxor (lane s x y) (Z.ldiff (lane s (x + 2) y) (lane s (x + 1) y)))
      positions.

Definition iota (rc : Z) (s : list Z) : list Z :=
  match s with
  | [] => []
  | a :: s' => Z.lxor a rc :: s'
  end.

Definition round (s : list Z) (rc : Z) : list Z :=
  iota rc (chi (rho_pi (theta s))).

Definition keccak_f (s : list Z) : list Z :=
  fold_left round round_constants s.

(** The rate of SHA3-256, in bytes. *)
Definition rate : nat := 136.

(** xor a byte into the state at byte position [pos] (little-endian
    lanes). *)
Definition xor_byte (s : list Z) (pos : nat) (b : Z) : list Z :=
  let i := (pos / 8)%nat in
  <[ i := Z.lxor (nth i s 0) (Z.shiftl b (8 * Z.of_nat (pos mod 8))) ]> s.

Fixpoint absorb (s : list Z) (pos : nat) (msg : list byte) : list Z * nat :=
  match msg with
  | [] => (s, pos)
  | b :: msg' =>
      let s' := xor_byte s pos (Z.of_N (Byte.to_N b)) in
      if (S pos =? rate)%nat then absorb (keccak_f s') 0 msg'
      else absorb s' (S pos) msg'
  end.

Definition squeeze_byte (s : list Z) (i : nat) : byte :=
  let v := Z.land (Z.shiftr (nth (i / 8)%nat s 0) (8 * Z.of_nat (i mod 8))) 255 in
  default "000"%byte (Byte.of_N (Z.to_N v)).

Definition sha3_256 (msg : Buffer) : Buffer :=
  let '(s, pos) := absorb (repeat 0 25) 0 msg in
  let s := xor_byte s pos 0x06 in
  let s := xor_byte s (rate - 1) 0x80 in
  map (squeeze_byte (keccak_f s)) (seq 0 32).

End Sha3.

(** ** Buffer operations used by the program *)

(** [Buffer.compare(a, b)]: bytewise unsigned lexicographic order, a proper
    prefix comes first. *)
Fixpoint compare (a b : Buffer) : comparison :=
  match a, b with
  | [], [] => Eq
  | [], _ :: _ => Lt
  | _ :: _, [] => Gt
  | x :: a', y :: b' =>
      match N.compare (Byte.to_N x) (Byte.to_N y) with
      | Eq => compare a' b'
      | c => c
      end
  end.

(** [a.equals(b)] *)
Definition equals (a b : Buffer) : bool := bool_decide (a = b).

(** [Array.prototype.sort(cmp)] with a comparator: a stable sort. *)
Fixpoint sort_insert (x : Buffer) (l : list Buffer) : list Buffer :=
  match l with
  | [] => [x]
  | y :: l' =>
      match compare x y with
      | Gt => y :: sort_insert x l'
      | _ => x :: l
      end
  end.

Definition sort (l : list Buffer) : list Buffer := foldr sort_insert [] l.

(** [const sortAndConcat = (...args) =>
       Buffer.concat([...args].sort(Buffer.compare.bind(null)))] *)
Definition sortAndConcat (args : list Buffer) : Buffer := concat (sort args).

(** [el.toString('hex')]: two lowercase hexadecimal digits per byte. *)
Definition hexDigit (n : N) : ascii :=
  nth (N.to_nat n)
      [ "0"; "1"; "2"; "3"; "4"; "5"; "6"; "7";
        "8"; "9"; "a"; "b"; "c"; "d"; "e"; "f" ]%char "0"%char.

Definition byteToHex (b : byte) (rest : string) : string :=
  String (hexDigit (Byte.to_N b / 16)) (String (hexDigit (Byte.to_N b mod 16)) rest).

Definition toHex (b : Buffer) : string := foldr byteToHex EmptyString b.

(** The value of a hexadecimal digit. *)
Definition hexValue (c : ascii) : N :=
  let n := N_of_ascii c in
  (if n <=? 57 then n - 48 else n - 87)%N.

(** What the hexadecimal strings are made of. *)
Definition isLowerHexDigit (c : ascii) : bool :=
  let n := N_of_ascii c in
  ((48 <=? n) && (n <=? 57) || (97 <=? n) && (n <=? 102))%N.

Fixpoint allChars (p : ascii -> bool) (s : string) : bool :=
  match s with
  | EmptyString => true
  | String c s' => p c && allChars p s'
  end.

Definition lowerHex (s : string) : bool := allChars isLowerHexDigit s.

(** [s.startsWith(p)] *)
Fixpoint startsWith (p s : string) : bool :=
  match p, s with
  | EmptyString, _ => true
  | String _ _, EmptyString => false
  | String c p', String d s' => Ascii.eqb c d && startsWith p' s'
  end.

(** ** The store and the monad *)

(** The errors of the program: the two [throw new Error(..)] and a failed
    [invariant(..)].  The last two belong to the model: a reference outside
    the store, and a loop that used up its bound; the theorems show that
    neither is ever returned. *)
Inductive error : Type :=
| EmptyTree                    (* 'empty tree' *)
| NotFound                     (* 'Element does not exist in Merkle tree' *)
| NotBuffers                   (* 'Array is not an array of buffers' *)
| InvariantFailed (msg : string)
| DanglingRef
| OutOfFuel.

Inductive Res (A : Type) : Type :=
| Ok (a : A)
| Err (e : error).
Arguments Ok {A} a.
Arguments Err {A} e.

(** A reference to an array. *)
Definition ref : Type := nat.

(** The store: the arrays allocated so far, and the number of digests
    computed so far. *)
Record Store : Type := mkStore {
  arrays : list (list Buffer);
  digests : nat
}.

Definition init : Store := mkStore [] 0.

Definition M (A : Type) : Type := Store -> Res (A * Store).

Definition ret {A} (a : A) : M A := fun s => Ok (a, s).

Definition bind {A B} (m : M A) (k : A -> M B) : M B :=
  fun s => match m s with
           | Ok (a, s') => k a s'
           | Err e => Err e
           end.

Definition throw {A} (e : error) : M A := fun _ => Err e.

Declare Scope js_scope.
Delimit Scope js_scope with js.
Notation "x <- m ;; k" := (bind m (fun x => k))
  (at level 100, m at next level, right associativity) : js_scope.
Notation "m ;;; k" := (bind m (fun _ => k))
  (at level 100, right associativity) : js_scope.
Local Open Scope js_scope.

(** [invariant(cond, msg)] of tiny-invariant *)
Definition invariant (cond : bool) (msg : string) : M unit :=
  if cond then ret tt else throw (InvariantFailed msg).

(** A new array: [[...elements]], [[]]. *)
Definition alloc (a : list Buffer) : M ref :=
  fun s => Ok (length (arrays s), mkStore (arrays s ++ [a]) (digests s)).

(** The contents of an array. *)
Definition read (r : ref) : M (list Buffer) :=
  fun s => match arrays s !! r with
           | Some a => Ok (a, s)
           | None => Err DanglingRef
           end.

(** [r.push(x)], in place. *)
Definition push (r : ref) (x : Buffer) : M unit :=
  fun s => match arrays s !! r with
           | Some a => Ok (tt, mkStore (<[ r := a ++ [x] ]> (arrays s)) (digests s))
           | None => Err DanglingRef
           end.

(** One more digest computed. *)
Definition tick : M unit :=
  fun s => Ok (tt, mkStore (arrays s) (S (digests s))).

(** ** The class [MerkleTree] *)

Record MerkleTree : Type := mkTree {
  _elements : ref;
  _bufferElementPositionIndex : gmap string nat;
  _layers : list ref
}.

(** [getPairElement(idx, layer)]; [None] is [null].  A buffer is an object
    and so is truthy, also when it is empty: [invariant(pairEl, ..)] can only
    fail on a hole of the array. *)
Definition getPairElement (idx : nat) (layer : list Buffer) : M (option Buffer) :=
  let pairIdx := if Nat.even idx then idx + 1 else idx - 1 in
  if pairIdx <? length layer then
    match layer !! pairIdx with
    | Some pairEl => ret (Some pairEl)
    | None => throw (InvariantFailed "pairEl")
    end
  else ret None.

(** [bufDedup(elements)] *)
Definition bufDedup (elements : list Buffer) : list Buffer :=
  (imap (fun idx el => (idx, el)) elements)
    ≫= (fun '(idx, el) =>
          if (idx =? 0) || negb (bool_decide (elements !! (idx - 1) = Some el))
          then [el] else []).

(** [bufArrToHexArr(arr)]: every element of a [list Buffer] is a buffer, the
    check cannot fail. *)
Definition bufArrToHexArr (arr : list Buffer) : M (list string) :=
  if existsb (fun _ => false) arr then throw NotBuffers
  else ret (map (fun el => String "0" (String "x" (toHex el))) arr).

(** [this._elements.reduce((memo, el, index) => {
       memo[el.toString('hex')] = index; return memo }, {})]

    The object [{}] is used as a map from hexadecimal strings to positions.
    The properties it inherits from [Object.prototype] have names that are
    not hexadecimal strings and values that are not numbers, so that the
    test [typeof initialIdx !== 'number'] of [getProof] sees the map only. *)
Definition positionIndex (els : list Buffer) : gmap string nat :=
  fold_left (fun memo '(index, el) => <[ toHex el := index ]> memo)
            (imap (fun index el => (index, el)) els) ∅.

Section Tree.

(** [new SHA3(256).update(b).digest()] *)
Variable digest : Buffer -> Buffer.

(** [a <= b] on two buffers: JavaScript compares the strings that
    [toString()] gives (the UTF-8 decodings).  [verify] uses it to choose
    the order of the arguments of [combinedHash], which sorts them again. *)
Variable buffer_le : Buffer -> Buffer -> bool.

(** [combinedHash(first, second)]; [None] is a missing ([undefined])
    argument, the only falsy value an array of buffers can give. *)
Definition combinedHash (first second : option Buffer) : M Buffer :=
  match first, second with
  | None, None => throw (InvariantFailed "second element of pair must exist")
  | None, Some second => tick ;;; ret (digest second)
  | Some first, None => tick ;;; ret (digest first)
  | Some first, Some second => tick ;;; ret (digest (sortAndConcat [first; second]))
  end.

(** The [reduce] of [getNextLayer], from position [idx] on; [arr] is the
    whole array and [layer] the accumulator. *)
Fixpoint reduceFrom (arr : list Buffer) (idx : nat) (rest : list Buffer)
         (layer : list Buffer) : M (list Buffer) :=
  match rest with
  | [] => ret layer
  | el :: rest' =>
      if Nat.even idx then
        let pairEl := arr !! (idx + 1) in
        h <- combinedHash (Some el) pairEl ;;
        reduceFrom arr (S idx) rest' (layer ++ [h])
      else reduceFrom arr (S idx) rest' layer
  end.

(** [getNextLayer(elements)]: pads [elements] in place, returns a new
    array. *)
Definition getNextLayer (elements : ref) : M ref :=
  arr <- read elements ;;
  (if length arr mod 2 =? 1 then push elements EMPTY else ret tt) ;;;
  arr <- read elements ;;
  layer <- reduceFrom arr 0 arr [] ;;
  alloc layer.

(** The [while] loop of [getLayers]; [layers] is the local array of
    references. *)
Fixpoint getLayersLoop (fuel : nat) (layers : list ref) : M (list ref) :=
  match last layers with
  | None => ret layers
  | Some top =>
      arr <- read top ;;
      if 1 <? length arr then
        match fuel with
        | 0 => throw OutOfFuel
        | S fuel' =>
            invariant true "nextLayerIndex" ;;;
            next <- getNextLayer top ;;
            getLayersLoop fuel' (layers ++ [next])
        end
      else ret layers
  end.

(** [getLayers(elements)]; every turn of the loop at least halves a length
    that is above one, so [length elements] turns are enough. *)
Definition getLayers (elements : ref) : M (list ref) :=
  arr <- read elements ;;
  if length arr =? 0 then throw EmptyTree
  else getLayersLoop (length arr) [elements].

(** [constructor(elements)] *)
Definition constructor (elements : list Buffer) : M MerkleTree :=
  original_elements <- alloc elements ;;
  (if length elements mod 2 =? 1 then push original_elements EMPTY else ret tt) ;;;
  els <- read original_elements ;;
  let index := positionIndex els in
  layers <- getLayers original_elements ;;
  ret (mkTree original_elements index layers).

(** [getRoot()] *)
Definition getRoot (t : MerkleTree) : M Buffer :=
  match last (_layers t) with
  | None => throw (InvariantFailed "root")
  | Some top =>
      arr <- read top ;;
      match arr !! 0 with
      | Some root => ret root
      | None => throw (InvariantFailed "root")
      end
  end.

(** [getHexRoot()] *)
Definition getHexRoot (t : MerkleTree) : M string :=
  root <- getRoot t ;;
  ret (toHex root).

(** The [while] loop of [getProof]. *)
Fixpoint getProofLoop (fuel : nat) (idx : nat) (current_layer : ref)
         (result : list Buffer) : M (list Buffer) :=
  arr <- read current_layer ;;
  if 1 <? length arr then
    match fuel with
    | 0 => throw OutOfFuel
    | S fuel' =>
        pairElement <- getPairElement idx arr ;;
        let result :=
          match pairElement with
          | Some p => result ++ [p]
          | None => result ++ [[]]
          end in
        let idx := idx / 2 in
        next <- getNextLayer current_layer ;;
        getProofLoop fuel' idx next result
    end
  else ret result.

(** [getProof(el)] *)
Definition getProof (t : MerkleTree) (el : Buffer) : M (list Buffer) :=
  match _bufferElementPositionIndex t !! toHex el with
  | None => throw NotFound
  | Some initialIdx =>
      arr <- read (_elements t) ;;
      getProofLoop (length arr) initialIdx (_elements t) []
  end.

(** [getHexProof(el)] *)
Definition getHexProof (t : MerkleTree) (el : Buffer) : M (list string) :=
  proof <- getProof t el ;;
  bufArrToHexArr proof.

(** The [for] loop of [verify]. *)
Fixpoint verifyLoop (proof : list Buffer) (computedHash : Buffer) : M Buffer :=
  match proof with
  | [] => ret computedHash
  | element :: proof' =>
      computedHash <-
        (if buffer_le computedHash element
         then combinedHash (Some computedHash) (Some element)
         else combinedHash (Some element) (Some computedHash)) ;;
      verifyLoop proof' computedHash
  end.

(** [verify(proof, leaf)] *)
Definition verify (t : MerkleTree) (proof : list Buffer) (leaf : Buffer) : M bool :=
  computedHash <- verifyLoop proof leaf ;;
  root <- getRoot t ;;
  ret (equals computedHash root).

End Tree.

(** ** What the loops compute

    Functions on values, against which the stateful program is specified:
    the contents of the arrays, layer by layer. *)

Section Model.

Variable digest : Buffer -> Buffer.

(** An array after the padding [getNextLayer] does in place. *)
Definition pad (arr : list Buffer) : list Buffer :=
  if length arr mod 2 =? 1 then arr ++ [EMPTY] else arr.

(** The digest of a pair of buffers, both present. *)
Definition hashPair (a b : Buffer) : Buffer := digest (sortAndConcat [a; b]).

(** The result of the [reduce] of [getNextLayer]. *)
Fixpoint pairs (arr : list Buffer) : list Buffer :=
  match arr with
  | a :: b :: arr' => hashPair a b :: pairs arr'
  | [a] => [digest a]
  | [] => []
  end.

(** The arrays [getLayers] leaves behind, from the array it is given up to
    the root. *)
Fixpoint stack (fuel : nat) (arr : list Buffer) : list (list Buffer) :=
  if 1 <? length arr then
    match fuel with
    | 0 => [arr]
    | S fuel' => pad arr :: stack fuel' (pairs (pad arr))
    end
  else [arr].

(** The last of them. *)
Fixpoint rootLayer (fuel : nat) (arr : list Buffer) : list Buffer :=
  if 1 <? length arr then
    match fuel with
    | 0 => arr
    | S fuel' => rootLayer fuel' (pairs (pad arr))
    end
  else arr.

(** The entry [getProof] adds for position [idx] of a layer. *)
Definition sibling (idx : nat) (arr : list Buffer) : Buffer :=
  default [] (arr !! (if Nat.even idx then idx + 1 else idx - 1)).

(** The proof for position [idx] of a layer. *)
Fixpoint proofFrom (fuel : nat) (idx : nat) (arr : list Buffer) : list Buffer :=
  if 1 <? length arr then
    match fuel with
    | 0 => []
    | S fuel' => sibling idx arr :: proofFrom fuel' (idx / 2) (pairs (pad arr))
    end
  else [].

(** The digests [getLayers] computes. *)
Fixpoint stackDigests (fuel : nat) (arr : list Buffer) : nat :=
  if 1 <? length arr then
    match fuel with
    | 0 => 0
    | S fuel' => length (pairs (pad arr)) + stackDigests fuel' (pairs (pad arr))
    end
  else 0.

End Model.

(** The array a reference points to. *)
Definition points (s : Store) (r : ref) (a : list Buffer) : Prop :=
  arrays s !! r = Some a.

(** What [constructor] establishes for the leaves it is given: the position
    index is that of the padded leaves, [_layers] starts with [_elements],
    and its references point to the arrays of [stack]. *)
Definition built (digest : Buffer -> Buffer) (leaves : list Buffer)
           (t : MerkleTree) (s : Store) : Prop :=
  _bufferElementPositionIndex t = positionIndex (pad leaves)
  /\ (exists news, _layers t = _elements t :: news)
  /\ Forall2 (points s) (_layers t)
             (stack digest (length (pad leaves)) (pad leaves)).

(** The lengths of the arrays of the layer stack of a tree. *)
Definition layerLengths (t : MerkleTree) (s : Store) : list nat :=
  map (fun r => length (default [] (arrays s !! r))) (_layers t).

(** Half of [n], and one more when that leaves an odd number above one. *)
Definition halfPadded (n : nat) : nat :=
  let h := n / 2 in
  if 1 <? h then h + h mod 2 else h.

(** The store after [n] more digests. *)
Definition ticks (n : nat) (s : Store) : Store :=
  mkStore (arrays s) (digests s + n).

(** The value a computation returns, without the store. *)
Definition value {A} (r : Res (A * Store)) : Res A :=
  match r with
  | Ok (a, _) => Ok a
  | Err e => Err e
  end.

(** A string that is "0x" and then lowercase hexadecimal digits. *)
Definition prefixedLowerHex (h : string) : bool :=
  match h with
  | String "0" (String "x" d) => lowerHex d
  | _ => false
  end.

(** An order on buffers to run [verify] with.  What [<=] answers does not
    change the result of [verify] ([verifyLoop_spec] holds for every
    [buffer_le]). *)
Definition compare_le (a b : Buffer) : bool :=
  match compare a b with
  | Gt => false
  | _ => true
  end.

(** Leaves of one byte, for the examples. *)
Definition oneByte (n : nat) : Buffer := [default "000"%byte (Byte.of_nat n)].

Definition leaves_1_2_3 : list Buffer := [oneByte 1; oneByte 2; oneByte 3].

Definition six_leaves : list Buffer := map oneByte (seq 1 6).

(** The order of [Buffer.compare]: [a] does not sort after [b]. *)
Definition bufferLe (a b : Buffer) : Prop := compare a b <> Gt.

(** [bufDedup] read from left to right: [prev] is the entry before, if
    any. *)
Fixpoint dedupFrom (prev : option Buffer) (l : list Buffer) : list Buffer :=
  match l with
  | [] => []
  | x :: l' =>
      (if bool_decide (prev = Some x) then [] else [x]) ++ dedupFrom (Some x) l'
  end.

(** No two neighbours of the list are equal. *)
Definition noEqualNeighbours (l : list Buffer) : Prop :=
  forall i x y, l !! i = Some x -> l !! S i = Some y -> x <> y.

(** * Properties *)

(** ** Buffers: order, sorting, hexadecimal form *)

Lemma to_N_inj (x y : byte) : Byte.to_N x = Byte.to_N y -> x = y.
Proof.
  intros H. apply (f_equal Byte.of_N) in H.
  rewrite !Byte.of_to_N in H. congruence.
Qed.

Lemma compare_eq (a b : Buffer) : compare a b = Eq -> a = b.
Proof.
  revert b. induction a as [|x a IH]; intros [|y b]; simpl; try discriminate; auto.
  destruct (N.compare_spec (Byte.to_N x) (Byte.to_N y)) as [E| |]; try discriminate.
  intros H. apply to_N_inj in E. f_equal; auto.
Qed.

Lemma compare_antisym (a b : Buffer) : compare b a = CompOpp (compare a b).
Proof.
  revert b. induction a as [|x a IH]; intros [|y b]; simpl; auto.
  rewrite (N.compare_antisym (Byte.to_N x) (Byte.to_N y)).
  destruct (N.compare (Byte.to_N x) (Byte.to_N y)); simpl; auto.
Qed.

Lemma sort_pair (a b : Buffer) :
  sort [a; b] = match compare a b with Gt => [b; a] | _ => [a; b] end.
Proof. reflexivity. Qed.

(** The order of the two arguments does not matter to [sortAndConcat]. *)
Lemma sortAndConcat_comm (a b : Buffer) :
  sortAndConcat [a; b] = sortAndConcat [b; a].
Proof.
  unfold sortAndConcat. rewrite !sort_pair, (compare_antisym a b).
  destruct (compare a b) eqn:E; simpl; auto.
  apply compare_eq in E. now subst.
Qed.

(** Concatenating with the zero-length buffer changes nothing. *)
Lemma sortAndConcat_EMPTY_r (c : Buffer) : sortAndConcat [c; EMPTY] = c.
Proof.
  unfold sortAndConcat, EMPTY. rewrite sort_pair.
  destruct c; simpl; rewrite ?app_nil_r; reflexivity.
Qed.

Lemma sortAndConcat_EMPTY_l (c : Buffer) : sortAndConcat [EMPTY; c] = c.
Proof. rewrite sortAndConcat_comm. apply sortAndConcat_EMPTY_r. Qed.

Lemma hexValue_hexDigit (n : N) : (n < 16)%N -> hexValue (hexDigit n) = n.
Proof.
  intros H.
  assert (Hn : N.to_nat n < 16) by lia.
  rewrite <- (N2Nat.id n). generalize dependent (N.to_nat n). clear.
  intros m Hm. do 16 (destruct m as [|m]; [reflexivity|]). lia.
Qed.

Lemma isLowerHexDigit_hexDigit (n : N) : isLowerHexDigit (hexDigit n) = true.
Proof.
  unfold hexDigit.
  generalize (N.to_nat n). intros m.
  do 16 (destruct m as [|m]; [reflexivity|]). destruct m; reflexivity.
Qed.

Lemma byteToHex_inj (x y : byte) (r r' : string) :
  byteToHex x r = byteToHex y r' -> x = y /\ r = r'.
Proof.
  unfold byteToHex. intros H. injection H as H1 H2 H3.
  split; [|assumption]. apply to_N_inj.
  pose proof (Byte.to_N_bounded x). pose proof (Byte.to_N_bounded y).
  apply (f_equal hexValue) in H1, H2.
  rewrite !hexValue_hexDigit in H1, H2
    by (try apply N.mod_lt; try apply N.Div0.div_lt_upper_bound; lia).
  rewrite (N.div_mod (Byte.to_N x) 16), (N.div_mod (Byte.to_N y) 16) by lia.
  congruence.
Qed.

(** Distinct buffers have distinct keys in the position index. *)
Lemma toHex_inj (a b : Buffer) : toHex a = toHex b -> a = b.
Proof.
  revert b. induction a as [|x a IH]; intros [|y b]; simpl; try discriminate; auto.
  intros H. apply byteToHex_inj in H as [-> H]. f_equal; auto.
Qed.

Lemma toHex_lowerHex (b : Buffer) : lowerHex (toHex b) = true.
Proof.
  induction b as [|x b IH]; [reflexivity|].
  unfold lowerHex in *. simpl. rewrite !isLowerHexDigit_hexDigit. exact IH.
Qed.


(** No hexadecimal form starts with "0x": [x] is not a digit. *)
Lemma toHex_no_prefix (b : Buffer) : startsWith "0x" (toHex b) = false.
Proof.
  destruct b as [|x b]; [reflexivity|].
  cbn [toHex foldr byteToHex startsWith].
  destruct (Ascii.eqb_spec "x" (hexDigit (Byte.to_N x mod 16))) as [E|].
  - pose proof (isLowerHexDigit_hexDigit (Byte.to_N x mod 16)) as H.
    rewrite <- E in H. discriminate.
  - now rewrite !andb_false_r.
Qed.

(** ** Layers *)

(** Induction two elements at a time, the way [reduce] pairs them. *)
Lemma pair_induction {A} (P : list A -> Prop) :
  P [] -> (forall a, P [a]) -> (forall a b l, P l -> P (a :: b :: l)) ->
  forall l, P l.
Proof.
  intros H0 H1 H2 l.
  enough (P l /\ forall a, P (a :: l)) by tauto.
  induction l as [|b l [IH1 IH2]]; split; auto.
Qed.

Lemma ticks_0 (s : Store) : ticks 0 s = s.
Proof. destruct s. unfold ticks. simpl. f_equal. lia. Qed.

Lemma ticks_ticks (n m : nat) (s : Store) : ticks n (ticks m s) = ticks (m + n) s.
Proof. unfold ticks. simpl. f_equal. lia. Qed.

Lemma pad_even (arr : list Buffer) :
  Nat.even (length arr) = true -> pad arr = arr.
Proof.
  intros H. unfold pad.
  destruct (Nat.eqb_spec (length arr mod 2) 1) as [E|]; [|reflexivity].
  apply Nat.even_spec in H. destruct H as [k Hk]. rewrite Hk in E.
  rewrite Nat.mul_comm, Nat.Div0.mod_mul in E. discriminate.
Qed.

Lemma pad_cons2 (a b : Buffer) (arr : list Buffer) :
  pad (a :: b :: arr) = a :: b :: pad arr.
Proof.
  unfold pad. simpl length.
  replace (S (S (length arr))) with (length arr + 1 * 2) by lia.
  rewrite Nat.Div0.mod_add. destruct (_ =? _); reflexivity.
Qed.

Lemma length_pad_even (arr : list Buffer) : Nat.even (length (pad arr)) = true.
Proof.
  induction arr as [| a | a b l IH] using pair_induction; try reflexivity.
  rewrite pad_cons2. exact IH.
Qed.

Lemma pad_pad (arr : list Buffer) : pad (pad arr) = pad arr.
Proof. apply pad_even, length_pad_even. Qed.

Lemma length_pad (arr : list Buffer) :
  length (pad arr) = length arr + length arr mod 2.
Proof.
  induction arr as [| a | a b l IH] using pair_induction; try reflexivity.
  rewrite pad_cons2. simpl length. rewrite IH.
  replace (S (S (length l))) with (length l + 1 * 2) by lia.
  rewrite Nat.Div0.mod_add. lia.
Qed.

Section Layers.

Variable digest : Buffer -> Buffer.

Lemma length_pairs (arr : list Buffer) :
  length (pairs digest arr) = Nat.div2 (S (length arr)).
Proof.
  induction arr as [| a | a b l IH] using pair_induction; try reflexivity.
  simpl. f_equal. exact IH.
Qed.

(** A layer above is half the padded layer below. *)
Lemma length_pairs_pad (arr : list Buffer) :
  length (pairs digest (pad arr)) = length (pad arr) / 2.
Proof.
  rewrite length_pairs.
  pose proof (length_pad_even arr) as H.
  apply Nat.even_spec in H. destruct H as [k Hk]. rewrite Hk.
  rewrite Nat.div2_succ_double, Nat.mul_comm, Nat.div_mul; lia.
Qed.

Lemma length_pairs_pad_lt (arr : list Buffer) :
  1 < length arr -> length (pairs digest (pad arr)) < length arr.
Proof.
  intros H. rewrite length_pairs_pad, length_pad.
  pose proof (Nat.mod_upper_bound (length arr) 2).
  apply Nat.Div0.div_lt_upper_bound. lia.
Qed.

Lemma combinedHash_both (a b : Buffer) (s : Store) :
  combinedHash digest (Some a) (Some b) s = Ok (hashPair digest a b, ticks 1 s).
Proof.
  unfold combinedHash, bind, tick, ret, ticks, hashPair.
  do 3 f_equal. lia.
Qed.

Lemma combinedHash_first (a : Buffer) (s : Store) :
  combinedHash digest (Some a) None s = Ok (digest a, ticks 1 s).
Proof.
  unfold combinedHash, bind, tick, ret, ticks. do 3 f_equal. lia.
Qed.

Lemma combinedHash_comm (a b : Buffer) (s : Store) :
  combinedHash digest (Some a) (Some b) s = combinedHash digest (Some b) (Some a) s.
Proof.
  rewrite !combinedHash_both. unfold hashPair. now rewrite sortAndConcat_comm.
Qed.

Lemma hashPair_comm (a b : Buffer) : hashPair digest a b = hashPair digest b a.
Proof. unfold hashPair. now rewrite sortAndConcat_comm. Qed.

(** The [reduce] of [getNextLayer] computes [pairs], with one digest for
    each entry. *)
Lemma reduceFrom_spec (arr : list Buffer) :
  forall rest idx layer s,
    Nat.even idx = true -> drop idx arr = rest ->
    reduceFrom digest arr idx rest layer s
    = Ok (layer ++ pairs digest rest, ticks (length (pairs digest rest)) s).
Proof.
  intros rest.
  induction rest as [| a | a b l IH] using pair_induction;
    intros idx layer s Hev Hdrop.
  - simpl. unfold ret. now rewrite app_nil_r, ticks_0.
  - assert (Hn : arr !! (idx + 1) = None).
    { rewrite <- (lookup_drop arr idx 1), Hdrop. reflexivity. }
    cbn [reduceFrom]. rewrite Hev, Hn. unfold bind.
    rewrite combinedHash_first. reflexivity.
  - assert (Hb : arr !! (idx + 1) = Some b).
    { rewrite <- (lookup_drop arr idx 1), Hdrop. reflexivity. }
    assert (Hodd : Nat.even (S idx) = false).
    { rewrite Nat.even_succ, <- Nat.negb_even, Hev. reflexivity. }
    cbn [reduceFrom]. rewrite Hev, Hb. unfold bind at 1.
    rewrite combinedHash_both, Hodd.
    rewrite (IH (S (S idx))).
    + cbn [pairs length]. rewrite ticks_ticks, <- app_assoc. reflexivity.
    + rewrite Nat.even_succ, <- Nat.negb_even, Hodd. reflexivity.
    + replace (S (S idx)) with (idx + 2) by lia.
      rewrite <- drop_drop, Hdrop. reflexivity.
Qed.

(** [getNextLayer] pads its argument in place and allocates the layer
    above. *)
Lemma getNextLayer_spec (r : ref) (arr : list Buffer) (s : Store) :
  points s r arr ->
  getNextLayer digest r s
  = Ok (length (arrays s),
        mkStore (<[ r := pad arr ]> (arrays s) ++ [pairs digest (pad arr)])
                (digests s + length (pairs digest (pad arr)))).
Proof.
  unfold points. intros H.
  pose proof (lookup_lt_Some _ _ _ H) as Hlt.
  unfold getNextLayer, bind at 1, read. rewrite H.
  unfold pad. destruct (length arr mod 2 =? 1).
  - unfold bind at 1, push. rewrite H. unfold bind at 1. cbn [arrays].
    rewrite list_lookup_insert_eq by assumption.
    unfold bind at 1. rewrite reduceFrom_spec by reflexivity.
    unfold alloc, ticks. cbn [arrays digests app]. rewrite length_insert.
    reflexivity.
  - unfold bind at 1, ret. unfold bind at 1. rewrite H.
    unfold bind at 1. rewrite reduceFrom_spec by reflexivity.
    unfold alloc, ticks. cbn [arrays digests app].
    rewrite list_insert_id by assumption. reflexivity.
Qed.

End Layers.

(** ** The loops *)

Section Loops.

Variable digest : Buffer -> Buffer.
Variable buffer_le : Buffer -> Buffer -> bool.

Lemma points_next (r : ref) (a b : list Buffer) (l : list (list Buffer)) (n : nat) :
  points (mkStore (<[ r := a ]> l ++ [b]) n) (length l) b.
Proof.
  unfold points. cbn [arrays].
  apply list_lookup_middle. now rewrite length_insert.
Qed.

Lemma points_padded (s : Store) (r : ref) (a a' b : list Buffer) (n : nat) :
  points s r a -> points (mkStore (<[ r := a' ]> (arrays s) ++ [b]) n) r a'.
Proof.
  unfold points. intros H. cbn [arrays].
  pose proof (lookup_lt_Some _ _ _ H).
  rewrite lookup_app_l by now rewrite length_insert.
  now apply list_lookup_insert_eq.
Qed.

Lemma points_other (s : Store) (r r' : ref) (a a' b : list Buffer) (n : nat) :
  r' <> r -> points s r' a' ->
  points (mkStore (<[ r := a ]> (arrays s) ++ [b]) n) r' a'.
Proof.
  unfold points. intros Hne H. cbn [arrays].
  pose proof (lookup_lt_Some _ _ _ H).
  rewrite lookup_app_l by now rewrite length_insert.
  now rewrite list_lookup_insert_ne.
Qed.

Lemma points_lt (s : Store) (r : ref) (a : list Buffer) :
  points s r a -> r < length (arrays s).
Proof. apply lookup_lt_Some. Qed.

(** The loop of [getLayers] ends, and leaves the arrays of [stack]; no
    array but the top one it started from is changed. *)
Lemma getLayersLoop_spec (fuel : nat) :
  forall ls top arr s,
    points s top arr -> length arr <= fuel ->
    exists news s',
      getLayersLoop digest fuel (ls ++ [top]) s = Ok (ls ++ top :: news, s')
      /\ Forall2 (points s') (top :: news) (stack digest fuel arr)
      /\ (forall r a, r <> top -> points s r a -> points s' r a)
      /\ digests s' = digests s + stackDigests digest fuel arr.
Proof.
  induction fuel as [|fuel IH]; intros ls top arr s Hp Hlen.
  - exists [], s. destruct arr; [|simpl in Hlen; lia].
    cbn [getLayersLoop]. rewrite last_snoc. unfold bind, read.
    rewrite Hp. simpl. repeat split; auto; repeat constructor; exact Hp.
  - cbn [getLayersLoop stack stackDigests]. rewrite last_snoc.
    unfold bind at 1, read. rewrite Hp.
    destruct (1 <? length arr) eqn:Hgt.
    + apply Nat.ltb_lt in Hgt.
      unfold invariant, bind at 1, ret. unfold bind at 1.
      rewrite (getNextLayer_spec digest top arr s Hp).
      set (s1 := mkStore _ _).
      destruct (IH (ls ++ [top]) (length (arrays s)) (pairs digest (pad arr)) s1)
        as (news & s' & Hrun & Hst & Hfr & Hd).
      { apply points_next. }
      { pose proof (length_pairs_pad_lt digest arr Hgt). lia. }
      pose proof (points_lt _ _ _ Hp) as Hlt.
      exists (length (arrays s) :: news), s'. split; [|split; [|split]].
      * rewrite Hrun, <- app_assoc. reflexivity.
      * constructor; [|exact Hst].
        apply Hfr; [lia|]. eapply points_padded; eauto.
      * intros r a Hne Hr. apply Hfr.
        -- pose proof (points_lt _ _ _ Hr). lia.
        -- now apply points_other.
      * rewrite Hd. subst s1. cbn [digests]. lia.
    + exists [], s. unfold ret. repeat split; auto; repeat constructor; exact Hp.
Qed.

Lemma last_stack (fuel : nat) :
  forall arr, last (stack digest fuel arr) = Some (rootLayer digest fuel arr).
Proof.
  induction fuel as [|fuel IH]; intros arr; cbn [stack rootLayer];
    destruct (1 <? length arr); try reflexivity.
  rewrite last_cons, IH. reflexivity.
Qed.

Lemma getPairElement_spec (idx : nat) (arr : list Buffer) (s : Store) :
  getPairElement idx arr s
  = Ok (arr !! (if Nat.even idx then idx + 1 else idx - 1), s).
Proof.
  unfold getPairElement.
  set (pairIdx := if Nat.even idx then idx + 1 else idx - 1).
  destruct (Nat.ltb_spec pairIdx (length arr)) as [Hlt|Hge].
  - destruct (lookup_lt_is_Some_2 arr pairIdx Hlt) as [p Hp].
    rewrite Hp. reflexivity.
  - rewrite (lookup_ge_None_2 arr pairIdx) by assumption. reflexivity.
Qed.

(** The loop of [getProof] ends with the proof of [proofFrom]; the only
    array it may change, apart from the ones it allocates, is the one it
    starts from, which it pads. *)
Lemma getProofLoop_spec (fuel : nat) :
  forall idx cl arr result s,
    points s cl arr -> length arr <= fuel ->
    exists s',
      getProofLoop digest fuel idx cl result s
      = Ok (result ++ proofFrom digest fuel idx arr, s')
      /\ (forall r a, r <> cl -> points s r a -> points s' r a)
      /\ points s' cl (if 1 <? length arr then pad arr else arr).
Proof.
  induction fuel as [|fuel IH]; intros idx cl arr result s Hp Hlen.
  - exists s. destruct arr; [|simpl in Hlen; lia].
    cbn [getProofLoop]. unfold bind, read. rewrite Hp. simpl.
    unfold ret. rewrite app_nil_r. auto.
  - cbn [getProofLoop proofFrom].
    unfold bind at 1, read. rewrite Hp.
    destruct (1 <? length arr) eqn:Hgt.
    + apply Nat.ltb_lt in Hgt.
      unfold bind at 1. rewrite getPairElement_spec.
      unfold bind at 1. rewrite (getNextLayer_spec digest cl arr s Hp).
      set (s1 := mkStore _ _).
      set (result' := match arr !! _ with Some p => _ | None => _ end).
      destruct (IH (idx / 2) (length (arrays s)) (pairs digest (pad arr)) result' s1)
        as (s' & Hrun & Hfr & _).
      { apply points_next. }
      { pose proof (length_pairs_pad_lt digest arr Hgt). lia. }
      pose proof (points_lt _ _ _ Hp) as Hlt.
      exists s'. split; [|split].
      * rewrite Hrun. subst result'. unfold sibling.
        destruct (arr !! _); cbn [default]; rewrite <- app_assoc; reflexivity.
      * intros r a Hne Hr. apply Hfr.
        -- pose proof (points_lt _ _ _ Hr). lia.
        -- now apply points_other.
      * apply Hfr; [lia|]. eapply points_padded; eauto.
    + exists s. unfold ret. rewrite app_nil_r. auto.
Qed.

(** The loop of [verify] folds [hashPair] along the proof, whatever the
    comparison [<=] answers. *)
Lemma verifyLoop_spec (proof : list Buffer) :
  forall c s,
    verifyLoop digest buffer_le proof c s
    = Ok (fold_left (hashPair digest) proof c, ticks (length proof) s).
Proof.
  induction proof as [|p proof IH]; intros c s.
  - simpl. unfold ret. now rewrite ticks_0.
  - cbn [verifyLoop fold_left length]. unfold bind.
    destruct (buffer_le c p); rewrite combinedHash_both, IH, ticks_ticks;
      [|rewrite hashPair_comm]; reflexivity.
Qed.

Lemma sibling_cons2 (a b : Buffer) (arr : list Buffer) (i : nat) :
  sibling (S (S i)) (a :: b :: arr) = sibling i arr.
Proof.
  unfold sibling. cbn [Nat.even].
  destruct (Nat.even i) eqn:E.
  - reflexivity.
  - destruct i as [|i]; [discriminate|].
    cbn [Nat.sub]. rewrite Nat.sub_0_r. reflexivity.
Qed.

(** One step up: the parent of position [idx] is at [idx / 2], and it is
    the digest of the entry with its sibling. *)
Lemma pairs_pad_lookup (arr : list Buffer) :
  forall idx e,
    arr !! idx = Some e ->
    pairs digest (pad arr) !! (idx / 2)
    = Some (hashPair digest e (sibling idx arr)).
Proof.
  induction arr as [| a | a b l IH] using pair_induction; intros idx e H.
  - discriminate.
  - destruct idx as [|idx]; [|discriminate].
    injection H as <-. reflexivity.
  - rewrite pad_cons2. destruct idx as [|[|i]].
    + injection H as <-. reflexivity.
    + injection H as <-. cbn. f_equal. apply hashPair_comm.
    + replace (S (S i) / 2) with (S (i / 2)).
      * rewrite sibling_cons2. cbn [pairs]. apply IH. exact H.
      * replace (S (S i)) with (i + 1 * 2) by lia.
        rewrite Nat.div_add by lia. lia.
Qed.

(** Folding the proof of a position from its entry gives the root. *)
Lemma rootLayer_proofFrom (fuel : nat) :
  forall arr idx e,
    arr !! idx = Some e -> length arr <= fuel ->
    rootLayer digest fuel arr !! 0
    = Some (fold_left (hashPair digest) (proofFrom digest fuel idx arr) e).
Proof.
  induction fuel as [|fuel IH]; intros arr idx e H Hlen.
  - apply lookup_lt_Some in H. lia.
  - cbn [rootLayer proofFrom].
    destruct (Nat.ltb_spec 1 (length arr)) as [Hgt|Hle].
    + cbn [fold_left]. apply IH.
      * now apply pairs_pad_lookup.
      * pose proof (length_pairs_pad_lt digest arr Hgt). lia.
    + pose proof (lookup_lt_Some _ _ _ H).
      replace idx with 0 in H by lia. exact H.
Qed.

End Loops.

(** ** The position index *)

Lemma positionIndex_snoc (l : list Buffer) (x : Buffer) :
  positionIndex (l ++ [x]) = <[ toHex x := length l ]> (positionIndex l).
Proof.
  unfold positionIndex. rewrite imap_app, fold_left_app. simpl.
  now rewrite Nat.add_0_r.
Qed.

(** The index holds positions of the array, under the key of their entry. *)
Lemma positionIndex_lookup_Some (els : list Buffer) (k : string) (i : nat) :
  positionIndex els !! k = Some i ->
  exists e, els !! i = Some e /\ toHex e = k.
Proof.
  induction els as [|x l IH] using rev_ind.
  - unfold positionIndex. simpl. now rewrite lookup_empty.
  - rewrite positionIndex_snoc.
    destruct (decide (toHex x = k)) as [<-|Hne].
    + rewrite lookup_insert_eq. intros [= <-]. exists x.
      split; [|reflexivity]. now apply list_lookup_middle.
    + rewrite lookup_insert_ne by assumption. intros H.
      destruct (IH H) as (e & He & Hk). exists e. split; [|assumption].
      now apply lookup_app_l_Some.
Qed.

(** Last wins: a buffer is indexed at its last position. *)
Lemma positionIndex_last (els : list Buffer) (e : Buffer) (i : nat) :
  els !! i = Some e ->
  (forall j, i < j -> els !! j <> Some e) ->
  positionIndex els !! toHex e = Some i.
Proof.
  induction els as [|x l IH] using rev_ind; intros Hi Hlast.
  - discriminate.
  - rewrite positionIndex_snoc.
    pose proof (lookup_lt_Some _ _ _ Hi) as Hlt. rewrite length_app in Hlt.
    simpl in Hlt.
    destruct (decide (i = length l)) as [->|Hne].
    + rewrite list_lookup_middle in Hi by reflexivity. injection Hi as ->.
      apply lookup_insert_eq.
    + rewrite lookup_app_l in Hi by lia.
      assert (Hx : x <> e).
      { intros ->. apply (Hlast (length l)); [lia|].
        now apply list_lookup_middle. }
      rewrite lookup_insert_ne by (intros H; apply Hx, toHex_inj, H).
      apply IH; [assumption|]. intros j Hj Hj'.
      apply (Hlast j Hj). now apply lookup_app_l_Some.
Qed.

(** Every entry of the array has its key in the index, at a position that
    holds it. *)
Lemma positionIndex_elem (els : list Buffer) (e : Buffer) :
  e ∈ els ->
  exists i, positionIndex els !! toHex e = Some i /\ els !! i = Some e.
Proof.
  induction els as [|x l IH] using rev_ind; intros Hin.
  - now apply not_elem_of_nil in Hin.
  - rewrite positionIndex_snoc.
    destruct (decide (x = e)) as [->|Hne].
    + exists (length l). rewrite lookup_insert_eq. split; [reflexivity|].
      now apply list_lookup_middle.
    + apply elem_of_app in Hin as [Hin|Hin].
      * destruct (IH Hin) as (i & Hi & He). exists i.
        rewrite lookup_insert_ne by (intros H; apply Hne, toHex_inj, H).
        split; [assumption|]. now apply lookup_app_l_Some.
      * apply list_elem_of_singleton in Hin. congruence.
Qed.

Lemma positionIndex_None (els : list Buffer) (e : Buffer) :
  positionIndex els !! toHex e = None <-> e ∉ els.
Proof.
  split.
  - intros H Hin. destruct (positionIndex_elem els e Hin) as (i & Hi & _).
    congruence.
  - intros Hnin. destruct (positionIndex els !! toHex e) as [i|] eqn:E; [|reflexivity].
    destruct (positionIndex_lookup_Some _ _ _ E) as (e' & He' & Hk).
    apply toHex_inj in Hk. subst e'. exfalso. apply Hnin.
    eapply list_elem_of_lookup_2; eauto.
Qed.

(** ** The tree *)

Lemma pad_nil_inv (leaves : list Buffer) : pad leaves = [] -> leaves = [].
Proof.
  intros H. apply (f_equal length) in H. rewrite length_pad in H.
  destruct leaves; [reflexivity|simpl in H; lia].
Qed.

Lemma Forall2_last_r {A B} (P : A -> B -> Prop) (l : list A) (k : list B) (y : B) :
  Forall2 P l k -> last k = Some y -> exists x, last l = Some x /\ P x y.
Proof.
  induction 1 as [|a b l k Hab H IH]; [discriminate|].
  destruct H as [|a' b' l' k' Hab' H'].
  - intros [= <-]. exists a. auto.
  - intros Hl. apply IH in Hl. exact Hl.
Qed.

Section TreeSpec.

Variable digest : Buffer -> Buffer.
Variable buffer_le : Buffer -> Buffer -> bool.

Lemma stack_head (fuel : nat) (arr : list Buffer) :
  length arr <= fuel ->
  exists rest,
    stack digest fuel arr = (if 1 <? length arr then pad arr else arr) :: rest.
Proof.
  intros Hlen. destruct fuel as [|fuel]; cbn [stack].
  - destruct (Nat.ltb_spec 1 (length arr)); [lia|]. now exists [].
  - destruct (1 <? length arr); eauto.
Qed.

Lemma length_rootLayer (fuel : nat) :
  forall arr, arr <> [] -> length arr <= fuel ->
              length (rootLayer digest fuel arr) = 1.
Proof.
  induction fuel as [|fuel IH]; intros arr Hne Hlen.
  - destruct arr; [congruence|simpl in Hlen; lia].
  - cbn [rootLayer]. destruct (Nat.ltb_spec 1 (length arr)) as [Hgt|Hle].
    + pose proof (length_pairs_pad_lt digest arr Hgt).
      apply IH; [|lia]. intros E. apply (f_equal length) in E.
      rewrite length_pairs_pad, length_pad in E. cbn [length] in E.
      apply Nat.div_small_iff in E; lia.
    + destruct arr; [congruence|simpl in *; lia].
Qed.

(** [_elements] points to the padded leaves. *)
Lemma built_elements (leaves : list Buffer) (t : MerkleTree) (s : Store) :
  built digest leaves t s -> points s (_elements t) (pad leaves).
Proof.
  intros (_ & (news & Hl) & Hst).
  destruct (stack_head (length (pad leaves)) (pad leaves)) as [rest Hrest];
    [lia|].
  rewrite pad_pad in Hrest.
  assert (Hh : stack digest (length (pad leaves)) (pad leaves) = pad leaves :: rest)
    by (rewrite Hrest; destruct (1 <? _); reflexivity).
  rewrite Hl, Hh in Hst. now apply Forall2_cons in Hst as [? _].
Qed.

(** The last reference of [_layers] points to the root layer. *)
Lemma built_root (leaves : list Buffer) (t : MerkleTree) (s : Store) :
  built digest leaves t s ->
  exists top, last (_layers t) = Some top
              /\ points s top (rootLayer digest (length (pad leaves)) (pad leaves)).
Proof.
  intros (_ & _ & Hst).
  eapply Forall2_last_r; [exact Hst|apply last_stack].
Qed.

Lemma built_preserved (leaves : list Buffer) (t : MerkleTree) (s s' : Store) :
  (forall r a, points s r a -> points s' r a) ->
  built digest leaves t s -> built digest leaves t s'.
Proof.
  intros Hfr (Hi & Hl & Hst). repeat split; try assumption.
  eapply Forall2_impl; [exact Hst|]. auto.
Qed.

(** The copy [[...elements]] and its padding. *)
Lemma copy_and_pad (leaves : list Buffer) (s0 : Store) :
  bind (alloc leaves)
       (fun r => bind (if length leaves mod 2 =? 1 then push r EMPTY else ret tt)
                      (fun _ => ret r)) s0
  = Ok (length (arrays s0), mkStore (arrays s0 ++ [pad leaves]) (digests s0)).
Proof.
  unfold bind at 1, alloc, pad. destruct (length leaves mod 2 =? 1).
  - unfold bind, push, ret. cbn [arrays digests].
    rewrite list_lookup_middle by reflexivity.
    rewrite insert_app_r_alt by lia. rewrite Nat.sub_diag. reflexivity.
  - reflexivity.
Qed.

(** [constructor] on a non-empty array of leaves. *)
Lemma constructor_spec (leaves : list Buffer) (s0 : Store) :
  leaves <> [] ->
  exists t s,
    constructor digest leaves s0 = Ok (t, s)
    /\ built digest leaves t s
    /\ _elements t = length (arrays s0)
    /\ (forall r a, points s0 r a -> points s r a)
    /\ digests s
       = digests s0 + stackDigests digest (length (pad leaves)) (pad leaves).
Proof.
  intros Hne.
  pose proof (copy_and_pad leaves s0) as Hcopy.
  unfold constructor. unfold bind at 1 2. unfold bind at 1 2 in Hcopy.
  destruct (alloc leaves s0) as [[r s1]|]; [|discriminate].
  destruct ((if length leaves mod 2 =? 1 then push r EMPTY else ret tt) s1)
    as [[[] s2]|]; [|discriminate].
  unfold ret in Hcopy. injection Hcopy as -> ->.
  set (s2 := mkStore _ _).
  assert (Hp : points s2 (length (arrays s0)) (pad leaves))
    by (apply list_lookup_middle; reflexivity).
  unfold bind at 1, read. rewrite Hp.
  unfold bind at 1, getLayers. unfold bind at 1, read. rewrite Hp.
  destruct (Nat.eqb_spec (length (pad leaves)) 0) as [E|_].
  { apply length_zero_iff_nil, pad_nil_inv in E. contradiction. }
  destruct (getLayersLoop_spec digest (length (pad leaves)) []
              (length (arrays s0)) (pad leaves) s2 Hp (le_n _))
    as (news & s' & Hrun & Hst & Hfr & Hd).
  cbn [app] in Hrun. rewrite Hrun. unfold ret.
  eexists _, s'. split; [reflexivity|]. split; [|split; [|split]].
  - repeat split; cbn; eauto.
  - reflexivity.
  - intros r a Hr. pose proof (points_lt _ _ _ Hr).
    apply Hfr; [lia|]. unfold points, s2. cbn [arrays].
    now apply lookup_app_l_Some.
  - rewrite Hd. reflexivity.
Qed.

Lemma constructor_nil (s0 : Store) : constructor digest [] s0 = Err EmptyTree.
Proof.
  unfold constructor, bind, alloc, read, getLayers. cbn [length Nat.modulo].
  simpl. rewrite list_lookup_middle by reflexivity. simpl.
  unfold bind, read. cbn [arrays]. rewrite list_lookup_middle by reflexivity.
  reflexivity.
Qed.

(** What a successful construction tells. *)
Lemma constructor_inv (leaves : list Buffer) (s0 : Store) (t : MerkleTree) (s : Store) :
  constructor digest leaves s0 = Ok (t, s) ->
  leaves <> [] /\ built digest leaves t s.
Proof.
  intros H. destruct leaves as [|x leaves].
  - rewrite constructor_nil in H. discriminate.
  - split; [discriminate|].
    destruct (constructor_spec (x :: leaves) s0) as (t' & s' & Hc & Hb & _);
      [discriminate|].
    congruence.
Qed.

Lemma getRoot_spec (t : MerkleTree) (s : Store) (top : ref)
      (arr : list Buffer) (root : Buffer) :
  last (_layers t) = Some top -> points s top arr -> arr !! 0 = Some root ->
  getRoot t s = Ok (root, s).
Proof.
  intros Hl Hp Hr. unfold getRoot. rewrite Hl. unfold bind, read.
  rewrite Hp, Hr. reflexivity.
Qed.

(** [getRoot] reads the arrays only. *)
Lemma getRoot_arrays (t : MerkleTree) (s s' : Store) (root : Buffer) :
  arrays s = arrays s' ->
  getRoot t s = Ok (root, s) -> getRoot t s' = Ok (root, s').
Proof.
  intros Ha. unfold getRoot. destruct (last (_layers t)); [|discriminate].
  unfold bind, read. rewrite <- Ha.
  destruct (arrays s !! r); [|discriminate].
  destruct (l !! 0); [|discriminate]. unfold ret. congruence.
Qed.

(** The root of a tree built from [leaves]. *)
Lemma built_getRoot (leaves : list Buffer) (t : MerkleTree) (s : Store) :
  leaves <> [] -> built digest leaves t s ->
  exists root,
    rootLayer digest (length (pad leaves)) (pad leaves) = [root]
    /\ getRoot t s = Ok (root, s).
Proof.
  intros Hne Hb. destruct (built_root _ _ _ Hb) as (top & Hl & Hp).
  pose proof (length_rootLayer (length (pad leaves)) (pad leaves)) as Hlen.
  destruct (rootLayer digest (length (pad leaves)) (pad leaves))
    as [|root [|]] eqn:E.
  - exfalso. simpl in Hlen. enough (0 = 1) by lia. apply Hlen; [|lia].
    intros H. now apply pad_nil_inv in H.
  - exists root. split; [reflexivity|].
    eapply getRoot_spec; eauto.
  - exfalso. simpl in Hlen. enough (S (S (length l)) = 1) by lia.
    apply Hlen; [|lia]. intros H. now apply pad_nil_inv in H.
Qed.

(** [getProof] from a position the index holds. *)
Lemma built_getProof (leaves : list Buffer) (t : MerkleTree) (s : Store)
      (e : Buffer) (i : nat) :
  built digest leaves t s ->
  positionIndex (pad leaves) !! toHex e = Some i ->
  exists s1,
    getProof digest t e s
    = Ok (proofFrom digest (length (pad leaves)) i (pad leaves), s1)
    /\ getProof digest t e s
       = getProofLoop digest (length (pad leaves)) i (_elements t) [] s
    /\ (forall r a, points s r a -> points s1 r a).
Proof.
  intros Hb Hi. pose proof (built_elements _ _ _ Hb) as Hp.
  destruct Hb as (Hidx & _ & _).
  assert (Hg : getProof digest t e s
               = getProofLoop digest (length (pad leaves)) i (_elements t) [] s).
  { unfold getProof. rewrite Hidx, Hi. unfold bind, read. now rewrite Hp. }
  destruct (getProofLoop_spec digest (length (pad leaves)) i (_elements t)
              (pad leaves) [] s Hp (le_n _)) as (s1 & Hrun & Hfr & Hcl).
  exists s1. split; [|split].
  - rewrite Hg, Hrun. reflexivity.
  - exact Hg.
  - intros r a Hr. destruct (decide (r = _elements t)) as [->|Hne].
    + unfold points in Hr, Hp. rewrite Hp in Hr. injection Hr as <-.
      rewrite pad_pad in Hcl. now destruct (1 <? _).
    + now apply Hfr.
Qed.

(** [verify] compares the fold of the proof with the root. *)
Lemma verify_spec (t : MerkleTree) (s : Store) (proof : list Buffer)
      (leaf root : Buffer) :
  getRoot t s = Ok (root, s) ->
  verify digest buffer_le t proof leaf s
  = Ok (equals (fold_left (hashPair digest) proof leaf) root,
        ticks (length proof) s).
Proof.
  intros Hr. unfold verify, bind at 1. rewrite verifyLoop_spec.
  unfold bind. rewrite (getRoot_arrays t s (ticks (length proof) s) root);
    [reflexivity|reflexivity|exact Hr].
Qed.

(** The lengths of the arrays of the layer stack. *)
Lemma built_layerLengths (leaves : list Buffer) (t : MerkleTree) (s : Store) :
  built digest leaves t s ->
  layerLengths t s
  = map length (stack digest (length (pad leaves)) (pad leaves)).
Proof.
  intros (_ & _ & Hst). unfold layerLengths.
  induction Hst as [|r a rs l Hr _ IH]; [reflexivity|].
  cbn [map]. unfold points in Hr. rewrite Hr, IH. reflexivity.
Qed.

(** Two layers that follow each other: the lower one has an even length,
    the upper one has half of it, padded unless it is the root. *)
Lemma stack_lengths (fuel : nat) :
  forall arr k a b,
    length arr <= fuel ->
    stack digest fuel arr !! k = Some a ->
    stack digest fuel arr !! S k = Some b ->
    Nat.even (length a) = true /\ length b = halfPadded (length a).
Proof.
  induction fuel as [|fuel IH]; intros arr k a b Hlen Ha Hb.
  - cbn [stack] in Hb. destruct (1 <? length arr); discriminate.
  - cbn [stack] in Ha, Hb.
    destruct (Nat.ltb_spec 1 (length arr)) as [Hgt|Hle]; [|discriminate].
    pose proof (length_pairs_pad_lt digest arr Hgt) as Hlt.
    destruct k as [|k].
    + injection Ha as <-. cbn [lookup list_lookup] in Hb.
      destruct (stack_head fuel (pairs digest (pad arr))) as [rest Hrest];
        [lia|].
      rewrite Hrest in Hb. injection Hb as <-.
      split; [apply length_pad_even|].
      unfold halfPadded. rewrite <- (length_pairs_pad digest).
      destruct (1 <? length (pairs digest (pad arr))); [|reflexivity].
      apply length_pad.
    + apply (IH (pairs digest (pad arr)) k); [lia|exact Ha|exact Hb].
Qed.

Lemma existsb_never {A} (l : list A) : existsb (fun _ => false) l = false.
Proof. induction l; auto. Qed.

Lemma getHexProof_spec (t : MerkleTree) (e : Buffer) (s : Store) :
  getHexProof digest t e s
  = match getProof digest t e s with
    | Ok (proof, s') =>
        Ok (map (fun el => String "0" (String "x" (toHex el))) proof, s')
    | Err err => Err err
    end.
Proof.
  unfold getHexProof, bind. destruct (getProof digest t e s) as [[proof s']|];
    [|reflexivity].
  unfold bufArrToHexArr. rewrite existsb_never. reflexivity.
Qed.

Lemma prefixedLowerHex_map (proof : list Buffer) :
  forallb prefixedLowerHex
          (map (fun el => String "0" (String "x" (toHex el))) proof) = true.
Proof.
  induction proof as [|p proof IH]; [reflexivity|].
  cbn [map forallb prefixedLowerHex]. rewrite IH, andb_true_r.
  apply toHex_lowerHex.
Qed.

(** Inclusion, for a tree in any store in which it is still as it was
    built: [getProof] leaves it so, and [verify] accepts the proof. *)
Lemma built_inclusion (leaves : list Buffer) (t : MerkleTree) (s : Store)
      (e : Buffer) :
  leaves <> [] -> built digest leaves t s -> e ∈ pad leaves ->
  exists proof s1 root,
    getProof digest t e s = Ok (proof, s1)
    /\ built digest leaves t s1
    /\ getRoot t s1 = Ok (root, s1)
    /\ verify digest buffer_le t proof e s1 = Ok (true, ticks (length proof) s1).
Proof.
  intros Hne Hb He.
  destruct (positionIndex_elem _ _ He) as (i & Hi & Hie).
  destruct (built_getProof leaves t s e i Hb Hi) as (s1 & Hg & _ & Hfr).
  pose proof (built_preserved leaves t s s1 Hfr Hb) as Hb1.
  destruct (built_getRoot leaves t s1 Hne Hb1) as (root & Hroot & Hgr).
  pose proof (rootLayer_proofFrom digest (length (pad leaves)) (pad leaves) i e
                Hie (le_n _)) as Hfold.
  rewrite Hroot in Hfold. injection Hfold as Hfold.
  eexists _, s1, root. split; [exact Hg|]. split; [exact Hb1|].
  split; [exact Hgr|].
  rewrite (verify_spec t s1 _ e root Hgr).
  unfold equals. rewrite <- Hfold, bool_decide_eq_true_2; reflexivity.
Qed.

(** [verify] computes digests and changes no array. *)
Lemma built_ticks (leaves : list Buffer) (t : MerkleTree) (s : Store) (n : nat) :
  built digest leaves t s -> built digest leaves t (ticks n s).
Proof. apply built_preserved. auto. Qed.

End TreeSpec.

(** ** The order of the buffers and the sort *)

Lemma compare_refl (a : Buffer) : compare a a = Eq.
Proof.
  induction a as [|x a IH]; [reflexivity|].
  simpl. rewrite N.compare_refl. exact IH.
Qed.

Lemma compare_Gt_bufferLe (a b : Buffer) : compare a b = Gt -> bufferLe b a.
Proof.
  intros H. unfold bufferLe. rewrite (compare_antisym a b), H. discriminate.
Qed.

Lemma bufferLe_antisym (a b : Buffer) : bufferLe a b -> bufferLe b a -> a = b.
Proof.
  unfold bufferLe. rewrite (compare_antisym a b).
  destruct (compare a b) eqn:E; simpl; try congruence.
  intros _ _. now apply compare_eq.
Qed.

Lemma bufferLe_trans (a b c : Buffer) :
  bufferLe a b -> bufferLe b c -> bufferLe a c.
Proof.
  unfold bufferLe. revert b c.
  induction a as [|x a IH]; intros [|y b] [|z c]; simpl; try congruence.
  destruct (N.compare_spec (Byte.to_N x) (Byte.to_N y)) as [Exy|Lxy|Gxy];
    destruct (N.compare_spec (Byte.to_N y) (Byte.to_N z)) as [Eyz|Lyz|Gyz];
    destruct (N.compare_spec (Byte.to_N x) (Byte.to_N z)) as [Exz|Lxz|Gxz];
    try congruence; try lia.
  apply IH.
Qed.

#[local] Instance bufferLe_transitive : Transitive bufferLe.
Proof. intros a b c. apply bufferLe_trans. Qed.

#[local] Instance bufferLe_antisymmetric : AntiSymm (=) bufferLe.
Proof. intros a b. apply bufferLe_antisym. Qed.

Lemma sort_insert_perm (x : Buffer) (l : list Buffer) : sort_insert x l ≡ₚ x :: l.
Proof.
  induction l as [|y l IH]; [reflexivity|].
  simpl. destruct (compare x y); try reflexivity.
  rewrite IH. apply Permutation_swap.
Qed.

Lemma sort_insert_sorted (x : Buffer) (l : list Buffer) :
  Sorted bufferLe l -> Sorted bufferLe (sort_insert x l).
Proof.
  induction l as [|y l IH]; intros Hs.
  - repeat constructor.
  - simpl. destruct (compare x y) eqn:E.
    + constructor; [exact Hs|]. constructor. unfold bufferLe. congruence.
    + constructor; [exact Hs|]. constructor. unfold bufferLe. congruence.
    + apply Sorted_inv in Hs as [Hs Hhd]. constructor; [auto|].
      destruct l as [|z l]; simpl.
      * constructor. now apply compare_Gt_bufferLe.
      * destruct (compare x z); constructor;
          try (now apply compare_Gt_bufferLe); now inversion Hhd.
Qed.

Lemma sort_perm (l : list Buffer) : sort l ≡ₚ l.
Proof.
  induction l as [|x l IH]; [reflexivity|].
  cbn [sort foldr]. fold (sort l). rewrite sort_insert_perm, IH. reflexivity.
Qed.

Lemma sort_sorted (l : list Buffer) : Sorted bufferLe (sort l).
Proof.
  induction l as [|x l IH]; [constructor|].
  cbn [sort foldr]. now apply sort_insert_sorted.
Qed.

Lemma sort_unique (l l' : list Buffer) : l ≡ₚ l' -> sort l = sort l'.
Proof.
  intros H. apply (Sorted_unique bufferLe); try apply sort_sorted.
  now rewrite !sort_perm.
Qed.

(** ** More on layers, proofs and costs *)

Section MoreLayers.

Variable digest : Buffer -> Buffer.

(** The pairing rule: entry [k] of the layer above is the digest of the
    entries [2k] and [2k+1]. *)
Lemma pairs_lookup (l : list Buffer) :
  forall k a b,
    l !! (2 * k) = Some a -> l !! (2 * k + 1) = Some b ->
    pairs digest l !! k = Some (hashPair digest a b).
Proof.
  induction l as [| x | x y l IH] using pair_induction; intros k a b Ha Hb.
  - discriminate.
  - destruct k as [|k]; [discriminate|].
    replace (2 * S k) with (S (S (2 * k))) in Ha by lia. discriminate.
  - destruct k as [|k].
    + injection Ha as <-. injection Hb as <-. reflexivity.
    + replace (2 * S k) with (S (S (2 * k))) in Ha by lia.
      replace (2 * S k + 1) with (S (S (2 * k + 1))) in Hb by lia.
      cbn [pairs lookup list_lookup]. now apply IH.
Qed.

Lemma double_length_pairs_pad (arr : list Buffer) :
  2 * length (pairs digest (pad arr)) = length arr + length arr mod 2.
Proof.
  rewrite length_pairs, <- length_pad.
  pose proof (length_pad_even arr) as H.
  apply Nat.even_spec in H. destruct H as [k Hk]. rewrite Hk.
  now rewrite Nat.div2_succ_double.
Qed.

Lemma half_double (k : nat) : 2 * k / 2 = k.
Proof. rewrite Nat.mul_comm. apply Nat.div_mul. lia. Qed.

Lemma half_double_succ (k : nat) : (2 * k + 1) / 2 = k.
Proof.
  rewrite (Nat.mul_comm 2 k), Nat.div_add_l by lia.
  rewrite (Nat.div_small 1 2) by lia. lia.
Qed.

Lemma length_pad_gt1 (leaves : list Buffer) :
  leaves <> [] -> 1 < length (pad leaves).
Proof.
  intros Hne. pose proof (length_pad_even leaves) as H.
  apply Nat.even_spec in H as [k Hk].
  assert (length (pad leaves) <> 0).
  { intros E. apply length_zero_iff_nil, pad_nil_inv in E. contradiction. }
  lia.
Qed.

Lemma lookup_default (l : list Buffer) (j : nat) :
  j < length l -> l !! j = Some (default [] (l !! j)).
Proof.
  intros H. destruct (l !! j) as [p|] eqn:E; [reflexivity|].
  apply lookup_ge_None in E. unfold Buffer in *. lia.
Qed.

Lemma mod2_cases (n : nat) : n mod 2 = 0 \/ n mod 2 = 1.
Proof. pose proof (Nat.mod_upper_bound n 2). lia. Qed.

(** One proof entry for each layer below the root. *)
Lemma length_stack_proofFrom (fuel : nat) :
  forall idx arr,
    length (stack digest fuel arr) = S (length (proofFrom digest fuel idx arr)).
Proof.
  induction fuel as [|fuel IH]; intros idx arr; cbn [stack proofFrom];
    destruct (1 <? length arr); try reflexivity.
  cbn [length]. now rewrite (IH (idx / 2)).
Qed.

(** The number of entries of a proof is the logarithm of the length of the
    layer, rounded up. *)
Lemma proofFrom_log (fuel : nat) :
  forall idx arr,
    length arr <= fuel -> 1 < length arr ->
    length arr <= 2 ^ length (proofFrom digest fuel idx arr)
    /\ 2 ^ length (proofFrom digest fuel idx arr) <= 2 * length arr - 2.
Proof.
  induction fuel as [|fuel IH]; intros idx arr Hlen Hgt; [lia|].
  cbn [proofFrom]. destruct (Nat.ltb_spec 1 (length arr)) as [_|]; [|lia].
  cbn [length]. rewrite Nat.pow_succ_r'.
  pose proof (double_length_pairs_pad arr) as Hd.
  pose proof (mod2_cases (length arr)) as Hm.
  destruct (Nat.lt_ge_cases 1 (length (pairs digest (pad arr)))) as [Hgt'|Hle'].
  - destruct (IH (idx / 2) (pairs digest (pad arr))) as [H1 H2]; lia.
  - assert (Hp : proofFrom digest fuel (idx / 2) (pairs digest (pad arr)) = []).
    { destruct fuel; cbn [proofFrom];
        destruct (Nat.ltb_spec 1 (length (pairs digest (pad arr)))); auto; lia. }
    rewrite Hp. cbn [length]. rewrite Nat.pow_0_r. lia.
Qed.

(** The digests of a construction are linear in the number of leaves. *)
Lemma stackDigests_bounds (fuel : nat) :
  forall arr,
    length arr <= fuel -> 1 <= length arr ->
    length arr - 1 <= stackDigests digest fuel arr
    /\ stackDigests digest fuel arr <= 2 * length arr - 2.
Proof.
  induction fuel as [|fuel IH]; intros arr Hlen Hne; [lia|].
  cbn [stackDigests]. destruct (Nat.ltb_spec 1 (length arr)) as [Hgt|]; [|lia].
  pose proof (double_length_pairs_pad arr) as Hd.
  pose proof (mod2_cases (length arr)) as Hm.
  destruct (IH (pairs digest (pad arr))) as [H1 H2]; lia.
Qed.

(** The loop of [getProof] computes every layer again. *)
Lemma getProofLoop_digests (fuel : nat) :
  forall idx cl arr result s res s',
    points s cl arr -> length arr <= fuel ->
    getProofLoop digest fuel idx cl result s = Ok (res, s') ->
    digests s' = digests s + stackDigests digest fuel arr.
Proof.
  induction fuel as [|fuel IH]; intros idx cl arr result s res s' Hp Hlen.
  - destruct arr; [|simpl in Hlen; lia].
    cbn [getProofLoop stackDigests]. unfold bind, read. rewrite Hp. simpl.
    unfold ret. intros [= _ <-]. lia.
  - cbn [getProofLoop stackDigests]. unfold bind at 1, read. rewrite Hp.
    destruct (Nat.ltb_spec 1 (length arr)) as [Hgt|Hle].
    + unfold bind at 1. rewrite getPairElement_spec.
      unfold bind at 1. rewrite (getNextLayer_spec digest cl arr s Hp).
      intros Hrun. apply (IH _ _ (pairs digest (pad arr))) in Hrun.
      * rewrite Hrun. cbn [digests]. lia.
      * apply points_next.
      * pose proof (length_pairs_pad_lt digest arr Hgt). lia.
    + unfold ret. intros [= _ <-]. lia.
Qed.

(** Padding and pairing after an even number of entries. *)
Lemma pad_app_even (l1 l2 : list Buffer) :
  Nat.even (length l1) = true -> pad (l1 ++ l2) = l1 ++ pad l2.
Proof.
  induction l1 as [| x | x y l1 IH] using pair_induction; intros H.
  - reflexivity.
  - discriminate.
  - cbn [app]. rewrite pad_cons2. f_equal. f_equal. now apply IH.
Qed.

Lemma pairs_app_even (l1 l2 : list Buffer) :
  Nat.even (length l1) = true ->
  pairs digest (l1 ++ l2) = pairs digest l1 ++ pairs digest l2.
Proof.
  induction l1 as [| x | x y l1 IH] using pair_induction; intros H.
  - reflexivity.
  - discriminate.
  - cbn [app pairs]. f_equal. now apply IH.
Qed.

(** Exchanging the two entries of a pair does not change the layer
    above. *)
Lemma pairs_pad_swap (l1 l2 : list Buffer) (a b : Buffer) :
  Nat.even (length l1) = true ->
  pairs digest (pad (l1 ++ a :: b :: l2)) = pairs digest (pad (l1 ++ b :: a :: l2)).
Proof.
  intros H. rewrite !pad_app_even, !pad_cons2, !pairs_app_even by assumption.
  cbn [pairs]. now rewrite (hashPair_comm digest a b).
Qed.

(** Above the first layer, every entry is a digest. *)
Lemma pairs_digests (l : list Buffer) :
  Forall (fun h => exists x, h = digest x) (pairs digest l).
Proof.
  induction l as [| x | x y l IH] using pair_induction; cbn [pairs].
  - constructor.
  - repeat constructor. eauto.
  - constructor; [|exact IH]. unfold hashPair. eauto.
Qed.


Lemma proofFrom_digests (fuel : nat) :
  forall idx (arr : list Buffer),
    Forall (fun h => h = [] \/ exists x, h = digest x) arr ->
    Forall (fun h => h = [] \/ exists x, h = digest x)
           (proofFrom digest fuel idx arr).
Proof.
  induction fuel as [|fuel IH]; intros idx arr H; cbn [proofFrom];
    destruct (1 <? length arr); try constructor.
  - unfold sibling.
    destruct (arr !! (if Nat.even idx then idx + 1 else idx - 1)) as [p|] eqn:E;
      cbn [default]; [|now left].
    rewrite Forall_forall in H. apply H.
    eapply list_elem_of_lookup_2; eauto.
  - apply IH. eapply Forall_impl; [apply pairs_digests|].
    intros h Hh. now right.
Qed.

End MoreLayers.

(** A position the index holds is the last one of its entry. *)
Lemma positionIndex_Some_last (els : list Buffer) (e : Buffer) (i : nat) :
  positionIndex els !! toHex e = Some i ->
  forall j, i < j -> els !! j <> Some e.
Proof.
  induction els as [|x l IH] using rev_ind; intros Hi j Hj Hje.
  - discriminate.
  - rewrite positionIndex_snoc in Hi.
    pose proof (lookup_lt_Some _ _ _ Hje) as Hlt.
    rewrite length_app in Hlt. simpl in Hlt.
    destruct (decide (x = e)) as [->|Hne].
    + rewrite lookup_insert_eq in Hi. injection Hi as <-. lia.
    + rewrite lookup_insert_ne in Hi by (intros H; apply Hne, toHex_inj, H).
      destruct (decide (j = length l)) as [->|Hjl].
      * rewrite list_lookup_middle in Hje by reflexivity. congruence.
      * rewrite lookup_app_l in Hje by lia. exact (IH Hi j Hj Hje).
Qed.

(** ** [bufDedup] *)

Lemma bufDedup_from (rest : list Buffer) :
  forall pre els,
    els = pre ++ rest ->
    imap (fun idx el => (length pre + idx, el)) rest
      ≫= (fun '(idx, el) =>
            if (idx =? 0) || negb (bool_decide (els !! (idx - 1) = Some el))
            then [el] else [])
    = dedupFrom (last pre) rest.
Proof.
  induction rest as [|x rest IH]; intros pre els Hels; [reflexivity|].
  cbn [imap dedupFrom]. rewrite bind_cons. f_equal.
  - rewrite Nat.add_0_r. subst els.
    destruct pre as [|p pre _] using rev_ind.
    + reflexivity.
    + rewrite last_snoc, length_app. cbn [length].
      replace (length pre + 1 =? 0) with false by (symmetry; apply Nat.eqb_neq; lia).
      replace (length pre + 1 - 1) with (length pre) by lia.
      rewrite <- app_assoc. cbn [app].
      rewrite list_lookup_middle by reflexivity.
      cbn [orb]. destruct (bool_decide (Some p = Some x)); reflexivity.
  - transitivity (dedupFrom (last (pre ++ [x])) rest);
      [|now rewrite last_snoc].
    rewrite <- (IH (pre ++ [x]) els).
    + f_equal. apply imap_ext. intros i y _. cbn.
      rewrite length_app. cbn [length]. f_equal. lia.
    + rewrite <- app_assoc. exact Hels.
Qed.

(** [bufDedup] goes through the array once and drops an entry equal to the
    one before it. *)
Lemma bufDedup_dedupFrom (l : list Buffer) : bufDedup l = dedupFrom None l.
Proof. exact (bufDedup_from l [] l eq_refl). Qed.

Lemma dedupFrom_elem (l : list Buffer) :
  forall prev x,
    (x ∈ dedupFrom prev l -> x ∈ l)
    /\ (x ∈ l -> x ∈ dedupFrom prev l \/ prev = Some x).
Proof.
  induction l as [|y l IH]; intros prev x; cbn [dedupFrom].
  - split; [auto|]. intros H. now apply not_elem_of_nil in H.
  - destruct (IH (Some y) x) as [IH1 IH2]. split.
    + intros H. apply elem_of_app in H as [H|H].
      * destruct (bool_decide (prev = Some y)).
        -- now apply not_elem_of_nil in H.
        -- apply list_elem_of_singleton in H. subst. left.
      * right. auto.
    + intros H. apply elem_of_cons in H as [->|H].
      * destruct (bool_decide_reflect (prev = Some y)) as [E|E]; [now right|].
        left. apply elem_of_app. left. left.
      * destruct (IH2 H) as [H'|[= ->]].
        -- left. apply elem_of_app. now right.
        -- destruct (bool_decide_reflect (prev = Some x)) as [E|E]; [now right|].
           left. apply elem_of_app. left. left.
Qed.

Lemma dedupFrom_neighbours (l : list Buffer) :
  forall prev,
    noEqualNeighbours (dedupFrom prev l)
    /\ (forall h, head (dedupFrom prev l) = Some h -> prev <> Some h).
Proof.
  induction l as [|y l IH]; intros prev; cbn [dedupFrom].
  - split; [intros i x z H; discriminate|discriminate].
  - destruct (IH (Some y)) as [IH1 IH2].
    destruct (bool_decide_reflect (prev = Some y)) as [E|E]; cbn [app].
    + split; [exact IH1|]. intros h Hh. subst prev. exact (IH2 h Hh).
    + split; [|intros h [= <-]; exact E].
      intros [|i] x z Hx Hz.
      * injection Hx as <-.
        change (dedupFrom (Some y) l !! 0 = Some z) in Hz.
        rewrite <- head_lookup in Hz. intros ->. now apply (IH2 z).
      * exact (IH1 i x z Hx Hz).
Qed.

Lemma dedupFrom_fixed (l : list Buffer) :
  forall prev,
    noEqualNeighbours l ->
    (forall h, head l = Some h -> prev <> Some h) ->
    dedupFrom prev l = l.
Proof.
  induction l as [|y l IH]; intros prev Hn Hh; [reflexivity|].
  cbn [dedupFrom].
  destruct (bool_decide_reflect (prev = Some y)) as [E|E].
  - exfalso. now apply (Hh y).
  - cbn [app]. f_equal. apply IH.
    + intros i x z Hx Hz. exact (Hn (S i) x z Hx Hz).
    + intros h Hhd [= <-]. apply (Hn 0 y y); [reflexivity| |reflexivity].
      change (l !! 0 = Some y). now rewrite <- head_lookup.
Qed.

Lemma dedupFrom_sublist (l : list Buffer) :
  forall prev, sublist (dedupFrom prev l) l.
Proof.
  induction l as [|y l IH]; intros prev; cbn [dedupFrom]; [constructor|].
  destruct (bool_decide (prev = Some y)); cbn [app].
  - apply sublist_cons, IH.
  - apply sublist_skip, IH.
Qed.

Lemma sublist_sorted (l1 l2 : list Buffer) :
  sublist l1 l2 -> StronglySorted bufferLe l2 -> StronglySorted bufferLe l1.
Proof.
  induction 1 as [|x l1 l2 Hsub IH|x l1 l2 Hsub IH]; intros Hs.
  - constructor.
  - apply StronglySorted_inv in Hs as [Hs Hx]. constructor; [auto|].
    rewrite Forall_forall in *. intros y Hy. apply Hx.
    eapply elem_of_sublist; eauto.
  - apply StronglySorted_inv in Hs as [Hs _]. auto.
Qed.

Lemma sorted_neighbours_NoDup (l : list Buffer) :
  StronglySorted bufferLe l -> noEqualNeighbours l -> NoDup l.
Proof.
  induction 1 as [|x l Hs IH Hx]; intros Hn; constructor.
  - intros Hin. destruct l as [|h t]; [now apply not_elem_of_nil in Hin|].
    assert (Hxh : x <> h) by (apply (Hn 0); reflexivity).
    apply elem_of_cons in Hin as [->|Hin]; [congruence|].
    apply Hxh, bufferLe_antisym.
    + now apply Forall_inv in Hx.
    + apply StronglySorted_inv in Hs as [_ Hh].
      rewrite Forall_forall in Hh. now apply Hh.
  - apply IH. intros i a b Ha Hb. exact (Hn (S i) a b Ha Hb).
Qed.

(** ** The copy of the leaves *)

Lemma copy_and_pad_then {A} (leaves : list Buffer) (s0 : Store) (k : ref -> M A) :
  bind (alloc leaves)
       (fun r => bind (if length leaves mod 2 =? 1 then push r EMPTY else ret tt)
                      (fun _ => k r)) s0
  = k (length (arrays s0)) (mkStore (arrays s0 ++ [pad leaves]) (digests s0)).
Proof.
  unfold bind at 1, alloc, pad. destruct (length leaves mod 2 =? 1).
  - unfold bind, push, ret. cbn [arrays digests].
    rewrite list_lookup_middle by reflexivity.
    rewrite insert_app_r_alt by lia. rewrite Nat.sub_diag. reflexivity.
  - reflexivity.
Qed.

(** The tree of an array of leaves is the tree of the padded array. *)
Lemma constructor_pad (digest : Buffer -> Buffer) (leaves : list Buffer) (s0 : Store) :
  constructor digest leaves s0 = constructor digest (pad leaves) s0.
Proof.
  unfold constructor. rewrite !copy_and_pad_then, pad_pad. reflexivity.
Qed.

(** * The claims *)

Section Claims.

Variable digest : Buffer -> Buffer.
Variable buffer_le : Buffer -> Buffer -> bool.

(** C1 (inclusion).  A tree can be constructed from every non-empty array
    of leaves; for every entry [e] of its padded leaf layer, [getProof(e)]
    returns a proof and [verify], given that proof and [e], compares the
    result with the root of the tree and returns [true]. *)
Theorem inclusion (leaves : list Buffer) (s0 : Store) :
  leaves <> [] ->
  exists t s,
    constructor digest leaves s0 = Ok (t, s)
    /\ points s (_elements t) (pad leaves)
    /\ forall e, e ∈ pad leaves ->
         exists proof s1 root,
           getProof digest t e s = Ok (proof, s1)
           /\ getRoot t s1 = Ok (root, s1)
           /\ value (verify digest buffer_le t proof e s1) = Ok true.
Proof.
  intros Hne.
  destruct (constructor_spec digest leaves s0 Hne) as (t & s & Hc & Hb & _).
  exists t, s. split; [exact Hc|]. split; [eapply built_elements; eauto|].
  intros e He.
  destruct (built_inclusion digest buffer_le leaves t s e Hne Hb He)
    as (proof & s1 & root & Hg & _ & Hgr & Hv).
  exists proof, s1, root. rewrite Hv. auto.
Qed.

(** C2, as the code has it.  A tree constructed from exactly one leaf [x]
    has the two layers [[x, EMPTY]] and [[digest(x)]]: the leaf is padded
    with the sentinel and hashed with it, the root is the digest of [x],
    and the construction computes exactly one digest. *)
Theorem single_leaf_tree (x : Buffer) (s0 : Store) :
  exists t s,
    constructor digest [x] s0 = Ok (t, s)
    /\ Forall2 (points s) (_layers t) [[x; EMPTY]; [digest x]]
    /\ getRoot t s = Ok (digest x, s)
    /\ digests s = digests s0 + 1.
Proof.
  destruct (constructor_spec digest [x] s0) as (t & s & Hc & Hb & _ & _ & Hd);
    [discriminate|].
  assert (Hst : stack digest (length (pad [x])) (pad [x])
                = [[x; EMPTY]; [digest x]]).
  { transitivity [[x; EMPTY]; [hashPair digest x EMPTY]]; [reflexivity|].
    unfold hashPair. rewrite sortAndConcat_EMPTY_r. reflexivity. }
  exists t, s. split; [exact Hc|].
  destruct (built_getRoot digest [x] t s) as (root & Hroot & Hgr);
    [discriminate|exact Hb|].
  pose proof (last_stack digest (length (pad [x])) (pad [x])) as Hl.
  rewrite Hst, Hroot in Hl. injection Hl as <-.
  destruct Hb as (_ & _ & Hf). rewrite Hst in Hf.
  split; [exact Hf|]. split; [exact Hgr|].
  rewrite Hd. change (pad [x]) with [x; EMPTY]. reflexivity.
Qed.

(** C3, as the code has it.  [verify] is a method of two explicit inputs
    (proof, leaf) that returns a boolean: whether the hash folded from the
    leaf along the proof equals the root of the tree it is called on.  Its
    result depends on the tree, through [getRoot()] only, and not on what
    [<=] answers. *)
Theorem verify_compares_with_own_root (t : MerkleTree) (s : Store)
        (proof : list Buffer) (leaf root : Buffer) :
  getRoot t s = Ok (root, s) ->
  value (verify digest buffer_le t proof leaf s)
  = Ok (equals (fold_left (hashPair digest) proof leaf) root).
Proof.
  intros Hr. rewrite (verify_spec digest buffer_le t s proof leaf root Hr).
  reflexivity.
Qed.

(** C4, as the code has it.  For every buffer [c], the pair hashing of [c]
    with the sentinel, in [verify] and in [combinedHash] with either order
    of the arguments, gives the same digest as the single-sided hashing of
    [c] alone: concatenating with the zero-length buffer leaves [c] as it
    is, and all of them are the digest of [c]. *)
Theorem sentinel_pair_is_single_hash (c : Buffer) (s : Store) :
  value (verifyLoop digest buffer_le [EMPTY] c s) = Ok (digest c)
  /\ value (combinedHash digest (Some c) (Some EMPTY) s) = Ok (digest c)
  /\ value (combinedHash digest (Some EMPTY) (Some c) s) = Ok (digest c)
  /\ value (combinedHash digest (Some c) None s) = Ok (digest c)
  /\ value (combinedHash digest None (Some c) s) = Ok (digest c).
Proof.
  rewrite verifyLoop_spec, !combinedHash_both, combinedHash_first.
  cbn [value fold_left]. unfold hashPair.
  rewrite sortAndConcat_EMPTY_r, sortAndConcat_EMPTY_l. repeat split.
Qed.

(** C5.  The construction from the empty array of leaves fails with the
    error 'empty tree' and gives no tree; from every non-empty array of
    leaves it returns a tree. *)
Theorem construction_fails_on_empty_only (s0 : Store) :
  constructor digest [] s0 = Err EmptyTree
  /\ forall x leaves, exists t s,
       constructor digest (x :: leaves) s0 = Ok (t, s).
Proof.
  split; [apply constructor_nil|].
  intros x leaves.
  destruct (constructor_spec digest (x :: leaves) s0) as (t & s & Hc & _);
    [discriminate|eauto].
Qed.

(** C6.  For a constructed tree and a buffer [e], [getProof(e)] fails with
    'Element does not exist in Merkle tree' exactly when the hexadecimal
    form of [e] is not a key of the position index, which is exactly when
    [e] is not in the padded leaf layer; it either fails so, with no proof,
    or returns a proof. *)
Theorem getProof_not_found (leaves : list Buffer) (s0 : Store)
        (t : MerkleTree) (s : Store) (e : Buffer) :
  constructor digest leaves s0 = Ok (t, s) ->
  (getProof digest t e s = Err NotFound
   <-> _bufferElementPositionIndex t !! toHex e = None)
  /\ (_bufferElementPositionIndex t !! toHex e = None <-> e ∉ pad leaves)
  /\ (getProof digest t e s = Err NotFound
      \/ exists proof s', getProof digest t e s = Ok (proof, s')).
Proof.
  intros Hc. apply constructor_inv in Hc as [Hne Hb].
  pose proof Hb as (Hidx & _ & _).
  destruct (_bufferElementPositionIndex t !! toHex e) as [i|] eqn:E.
  - rewrite Hidx in E.
    destruct (built_getProof digest leaves t s e i Hb E) as (s1 & Hg & _).
    rewrite Hg. split; [|split].
    + split; discriminate.
    + rewrite <- positionIndex_None, E. reflexivity.
    + right. eauto.
  - assert (Hg : getProof digest t e s = Err NotFound)
      by (unfold getProof; rewrite E; reflexivity).
    rewrite Hg. split; [|split].
    + split; reflexivity.
    + rewrite Hidx in E. rewrite <- positionIndex_None, E. reflexivity.
    + now left.
Qed.

(** C7.  When a value occurs at several positions of the padded leaf
    layer, the position index maps its hexadecimal form to the last of
    them, and [getProof] walks up from that position. *)
Theorem last_position_wins (leaves : list Buffer) (s0 : Store)
        (t : MerkleTree) (s : Store) (e : Buffer) (i : nat) :
  constructor digest leaves s0 = Ok (t, s) ->
  pad leaves !! i = Some e ->
  (forall j, i < j -> pad leaves !! j <> Some e) ->
  _bufferElementPositionIndex t !! toHex e = Some i
  /\ getProof digest t e s
     = getProofLoop digest (length (pad leaves)) i (_elements t) [] s
  /\ value (getProof digest t e s)
     = Ok (proofFrom digest (length (pad leaves)) i (pad leaves)).
Proof.
  intros Hc Hi Hlast. apply constructor_inv in Hc as [Hne Hb].
  pose proof (positionIndex_last _ _ _ Hi Hlast) as Hidx.
  destruct (built_getProof digest leaves t s e i Hb Hidx) as (s1 & Hg & Hl & _).
  destruct Hb as (Hb & _). rewrite Hb. split; [exact Hidx|].
  split; [exact Hl|]. rewrite Hg. reflexivity.
Qed.

(** C8, as the code has it.  In the layer stack of a constructed tree the
    first layer is the padded leaf layer, every layer with a layer above
    it has an even length, the layer above has half that length and one
    more when the half is odd and above one (it was padded in place when
    its own successor was computed), and the last layer has length 1. *)
Theorem layer_stack_lengths (leaves : list Buffer) (s0 : Store)
        (t : MerkleTree) (s : Store) :
  constructor digest leaves s0 = Ok (t, s) ->
  layerLengths t s !! 0 = Some (length leaves + length leaves mod 2)
  /\ last (layerLengths t s) = Some 1
  /\ forall k n m,
       layerLengths t s !! k = Some n ->
       layerLengths t s !! S k = Some m ->
       Nat.even n = true /\ m = halfPadded n.
Proof.
  intros Hc. apply constructor_inv in Hc as [Hne Hb].
  rewrite (built_layerLengths digest leaves t s Hb).
  assert (Hpne : pad leaves <> []) by (intros H; now apply pad_nil_inv in H).
  change (map length ?st) with (length <$> st).
  split; [|split].
  - destruct (stack_head digest (length (pad leaves)) (pad leaves)) as [rest Hr];
      [lia|].
    rewrite Hr. cbn [fmap list_fmap lookup list_lookup]. f_equal.
    rewrite pad_pad. destruct (1 <? _); apply length_pad.
  - rewrite fmap_last, last_stack. cbn [fmap option_fmap option_map]. f_equal.
    now apply length_rootLayer.
  - intros k n m Hn Hm. rewrite list_lookup_fmap in Hn, Hm.
    destruct (stack digest (length (pad leaves)) (pad leaves) !! k)
      as [a|] eqn:Ea; [|discriminate].
    destruct (stack digest (length (pad leaves)) (pad leaves) !! S k)
      as [b|] eqn:Eb; [|discriminate].
    injection Hn as <-. injection Hm as <-.
    eapply stack_lengths; eauto.
Qed.

(** C9, as the code has it.  The hexadecimal form of the root that
    [getHexRoot] returns is made of lowercase hexadecimal digits only and
    does not start with "0x"; every element that [getHexProof] returns is
    "0x" followed by lowercase hexadecimal digits. *)
Theorem hex_forms (leaves : list Buffer) (s0 : Store)
        (t : MerkleTree) (s : Store) (e : Buffer) :
  constructor digest leaves s0 = Ok (t, s) ->
  (exists root,
      getRoot t s = Ok (root, s)
      /\ getHexRoot t s = Ok (toHex root, s)
      /\ lowerHex (toHex root) = true
      /\ startsWith "0x" (toHex root) = false)
  /\ match getHexProof digest t e s with
     | Ok (hs, _) => forallb prefixedLowerHex hs = true
     | Err err => err = NotFound
     end.
Proof.
  intros Hc. pose proof Hc as Hc'. apply constructor_inv in Hc as [Hne Hb].
  split.
  - destruct (built_getRoot digest leaves t s Hne Hb) as (root & _ & Hgr).
    exists root. split; [exact Hgr|]. split; [|split].
    + unfold getHexRoot, bind. rewrite Hgr. reflexivity.
    + apply toHex_lowerHex.
    + apply toHex_no_prefix.
  - rewrite getHexProof_spec.
    pose proof Hb as (Hidx & _ & _).
    destruct (_bufferElementPositionIndex t !! toHex e) as [i|] eqn:E.
    + rewrite Hidx in E.
      destruct (built_getProof digest leaves t s e i Hb E) as (s1 & Hg & _).
      rewrite Hg. apply prefixedLowerHex_map.
    + unfold getProof. rewrite E. reflexivity.
Qed.

(** C10.  When the number of leaves is odd, the key of the padding
    sentinel, the empty string, is in the position index, at the position
    after the last leaf, and [getProof] with a zero-length buffer returns a
    proof. *)
Theorem sentinel_is_retrievable (leaves : list Buffer) (s0 : Store) :
  length leaves mod 2 = 1 ->
  exists t s,
    constructor digest leaves s0 = Ok (t, s)
    /\ toHex EMPTY = EmptyString
    /\ _bufferElementPositionIndex t !! EmptyString = Some (length leaves)
    /\ exists proof s', getProof digest t EMPTY s = Ok (proof, s').
Proof.
  intros Hodd.
  assert (Hne : leaves <> []) by (intros ->; discriminate).
  destruct (constructor_spec digest leaves s0 Hne) as (t & s & Hc & Hb & _).
  assert (Hpad : pad leaves = leaves ++ [EMPTY]).
  { unfold pad. rewrite Hodd. reflexivity. }
  assert (Hi : positionIndex (pad leaves) !! toHex EMPTY = Some (length leaves)).
  { rewrite Hpad, positionIndex_snoc. apply lookup_insert_eq. }
  exists t, s. split; [exact Hc|]. split; [reflexivity|].
  pose proof Hb as (Hidx & _ & _). split; [rewrite Hidx; exact Hi|].
  destruct (built_getProof digest leaves t s EMPTY _ Hb Hi) as (s1 & Hg & _).
  eauto.
Qed.

End Claims.

Lemma inclusion_witness :
  leaves_1_2_3 <> []
  /\ exists t s,
      constructor Sha3.sha3_256 leaves_1_2_3 init = Ok (t, s)
      /\ points s (_elements t) (pad leaves_1_2_3)
      /\ forall e, e ∈ pad leaves_1_2_3 ->
           exists proof s1 root,
             getProof Sha3.sha3_256 t e s = Ok (proof, s1)
             /\ getRoot t s1 = Ok (root, s1)
             /\ value (verify Sha3.sha3_256 compare_le t proof e s1) = Ok true.
Proof.
  assert (H : leaves_1_2_3 <> []) by (vm_compute; discriminate).
  split; [exact H|].
  exact (inclusion Sha3.sha3_256 compare_le leaves_1_2_3 init H).
Defined.

(** * Further properties of the program *)

Section Further.

Variable digest : Buffer -> Buffer.
Variable buffer_le : Buffer -> Buffer -> bool.

(** What [getProof] returns on a tree that is as it was built. *)
Lemma built_getProof_value (leaves : list Buffer) (t : MerkleTree) (s : Store)
      (e : Buffer) :
  built digest leaves t s ->
  value (getProof digest t e s)
  = match positionIndex (pad leaves) !! toHex e with
    | Some i => Ok (proofFrom digest (length (pad leaves)) i (pad leaves))
    | None => Err NotFound
    end.
Proof.
  intros Hb. destruct (positionIndex (pad leaves) !! toHex e) as [i|] eqn:E.
  - destruct (built_getProof digest leaves t s e i Hb E) as (s1 & Hg & _).
    rewrite Hg. reflexivity.
  - destruct Hb as (Hidx & _). unfold getProof. rewrite Hidx, E. reflexivity.
Qed.

(** A proof that [getProof] returned, on a tree just constructed. *)
Lemma getProof_inv (leaves : list Buffer) (s0 : Store) (t : MerkleTree)
      (s : Store) (e : Buffer) (proof : list Buffer) (s1 : Store) :
  constructor digest leaves s0 = Ok (t, s) ->
  getProof digest t e s = Ok (proof, s1) ->
  leaves <> [] /\ built digest leaves t s /\ built digest leaves t s1
  /\ (forall r a, points s r a -> points s1 r a)
  /\ exists i,
       positionIndex (pad leaves) !! toHex e = Some i
       /\ pad leaves !! i = Some e
       /\ proof = proofFrom digest (length (pad leaves)) i (pad leaves).
Proof.
  intros Hc Hg. apply constructor_inv in Hc as [Hne Hb].
  destruct (positionIndex (pad leaves) !! toHex e) as [i|] eqn:E.
  - destruct (built_getProof digest leaves t s e i Hb E) as (s1' & Hg' & _ & Hfr).
    rewrite Hg in Hg'. injection Hg' as -> ->.
    destruct (positionIndex_lookup_Some _ _ _ E) as (e' & He' & Hk).
    apply toHex_inj in Hk. subst e'.
    split; [assumption|]. split; [assumption|].
    split; [eapply built_preserved; eauto|]. split; [assumption|]. eauto.
  - destruct Hb as (Hidx & _). unfold getProof in Hg.
    rewrite Hidx, E in Hg. discriminate.
Qed.

(** X1.  [combinedHash] of two buffers does not depend on the order of its
    arguments; it computes one digest. *)
Theorem combinedHash_symmetric (a b : Buffer) (s : Store) :
  combinedHash digest (Some a) (Some b) s = combinedHash digest (Some b) (Some a) s
  /\ exists h, combinedHash digest (Some a) (Some b) s = Ok (h, ticks 1 s).
Proof.
  rewrite !combinedHash_both, (hashPair_comm digest a b). eauto.
Qed.

(** X2.  [sortAndConcat] does not depend on the order of its arguments,
    however many they are. *)
Theorem sortAndConcat_order_independent (args args' : list Buffer) :
  args ≡ₚ args' -> sortAndConcat args = sortAndConcat args'.
Proof. intros H. unfold sortAndConcat. now rewrite (sort_unique args args'). Qed.

(** X3.  [getPairElement] at a position of the layer never fails.  It
    returns [null] only at the last position of a layer of odd length;
    otherwise it returns a neighbour with the same parent position, whose
    own pair element is the entry it started from. *)
Theorem getPairElement_sibling (idx : nat) (layer : list Buffer) (s : Store)
        (e : Buffer) :
  layer !! idx = Some e ->
  exists o,
    getPairElement idx layer s = Ok (o, s)
    /\ (o = None <-> Nat.even idx = true /\ S idx = length layer)
    /\ forall p, o = Some p ->
         exists j, layer !! j = Some p /\ j <> idx /\ j / 2 = idx / 2
                   /\ getPairElement j layer s = Ok (Some e, s).
Proof.
  intros He. pose proof (lookup_lt_Some _ _ _ He) as Hlt.
  rewrite getPairElement_spec. eexists. split; [reflexivity|].
  destruct (Nat.even idx) eqn:Hev.
  - split.
    + rewrite lookup_ge_None. split; [intros; split; [reflexivity|lia]|].
      intros [_ H]. lia.
    + intros p Hp. exists (idx + 1). split; [exact Hp|]. split; [lia|].
      apply Nat.even_spec in Hev as [k ->]. split.
      * now rewrite half_double, half_double_succ.
      * rewrite getPairElement_spec.
        replace (Nat.even (2 * k + 1)) with false.
        -- replace (2 * k + 1 - 1) with (2 * k) by lia. now rewrite He.
        -- symmetry. rewrite Nat.add_1_r, Nat.even_succ, <- Nat.negb_even.
           now rewrite Nat.even_mul.
  - assert (Hodd : Nat.odd idx = true) by (now rewrite <- Nat.negb_even, Hev).
    apply Nat.odd_spec in Hodd as [k ->].
    replace (2 * k + 1 - 1) with (2 * k) by lia.
    split.
    + split; [|intros [H _]; discriminate].
      intros H. apply lookup_ge_None in H. lia.
    + intros p Hp. exists (2 * k). split; [exact Hp|]. split; [lia|]. split.
      * now rewrite half_double, half_double_succ.
      * rewrite getPairElement_spec, Nat.even_mul. cbn [Nat.even orb].
        now rewrite He.
Qed.

(** X4.  [getNextLayer] returns a new array, of half the length of its
    argument rounded up, whose entry [k] is the digest of the entries [2k]
    and [2k+1] of the padded argument.  It pads the array it is given in
    place, changes no other array, and computes one digest for each entry
    of the result. *)
Theorem getNextLayer_effect (r : ref) (arr : list Buffer) (s : Store) :
  points s r arr ->
  exists next above s',
    getNextLayer digest r s = Ok (next, s')
    /\ arrays s !! next = None
    /\ points s' next above
    /\ points s' r (if Nat.odd (length arr) then arr ++ [EMPTY] else arr)
    /\ 2 * length above = length arr + length arr mod 2
    /\ (forall k a b,
          pad arr !! (2 * k) = Some a -> pad arr !! (2 * k + 1) = Some b ->
          above !! k = Some (digest (sortAndConcat [a; b])))
    /\ (forall r' a, r' <> r -> points s r' a -> points s' r' a)
    /\ digests s' = digests s + length above.
Proof.
  intros Hp. rewrite (getNextLayer_spec digest r arr s Hp).
  eexists _, (pairs digest (pad arr)), _. split; [reflexivity|].
  split; [now apply lookup_ge_None|].
  split; [apply points_next|].
  split.
  { replace (if Nat.odd (length arr) then arr ++ [EMPTY] else arr) with (pad arr).
    - eapply points_padded; eauto.
    - unfold pad. destruct (Nat.odd (length arr)) eqn:Ho.
      + apply Nat.odd_spec in Ho as [k ->].
        now rewrite Nat.add_comm, Nat.mul_comm, Nat.Div0.mod_add.
      + rewrite <- Nat.negb_even in Ho. apply negb_false_iff in Ho.
        apply Nat.even_spec in Ho as [k ->].
        now rewrite Nat.mul_comm, Nat.Div0.mod_mul. }
  split; [apply double_length_pairs_pad|].
  split; [intros k a b; apply pairs_lookup|].
  split; [|reflexivity].
  intros r' a Hne Hr'. now apply points_other.
Qed.

(** X5.  A direct call of [getLayers] on a non-empty array returns
    references to the arrays of the layers, the first of which is the
    argument itself (padded in place when the loop runs), and the last of
    which has exactly one entry; no other array that existed is changed. *)
Theorem getLayers_on_array (r : ref) (arr : list Buffer) (s : Store) :
  points s r arr -> arr <> [] ->
  exists news s' root,
    getLayers digest r s = Ok (r :: news, s')
    /\ Forall2 (points s') (r :: news) (stack digest (length arr) arr)
    /\ last (stack digest (length arr) arr) = Some [root]
    /\ (forall r' a, r' <> r -> points s r' a -> points s' r' a).
Proof.
  intros Hp Hne. unfold getLayers, bind, read. rewrite Hp.
  destruct (Nat.eqb_spec (length arr) 0) as [E|_].
  { apply length_zero_iff_nil in E. contradiction. }
  destruct (getLayersLoop_spec digest (length arr) [] r arr s Hp (le_n _))
    as (news & s' & Hrun & Hst & Hfr & _).
  cbn [app] in Hrun. rewrite Hrun.
  pose proof (length_rootLayer digest (length arr) arr Hne (le_n _)) as Hl.
  destruct (rootLayer digest (length arr) arr) as [|root [|]] eqn:E;
    try discriminate.
  exists news, s', root. rewrite last_stack, E. auto.
Qed.

(** X6.  A direct call of [getLayers] on an array of one entry returns that
    array alone, with no digest computed and nothing changed; on an empty
    array it fails with 'empty tree'. *)
Theorem getLayers_short (r : ref) (arr : list Buffer) (s : Store) :
  points s r arr -> length arr <= 1 ->
  getLayers digest r s
  = match arr with
    | [] => Err EmptyTree
    | _ :: _ => Ok ([r], s)
    end.
Proof.
  intros Hp Hlen. unfold getLayers, bind, read. rewrite Hp.
  destruct arr as [|x [|y arr]]; [reflexivity| |simpl in Hlen; lia].
  cbn. unfold bind, read. rewrite Hp. reflexivity.
Qed.

(** X7.  The root depends on the leaves only, not on what the store held
    before the construction. *)
Theorem root_determined_by_leaves (leaves : list Buffer) (s0 s0' : Store) :
  value (bind (constructor digest leaves) getRoot s0)
  = value (bind (constructor digest leaves) getRoot s0').
Proof.
  destruct leaves as [|x leaves].
  - unfold bind. now rewrite !constructor_nil.
  - assert (Hne : x :: leaves <> []) by discriminate.
    destruct (constructor_spec digest _ s0 Hne) as (t & s & Hc & Hb & _).
    destruct (constructor_spec digest _ s0' Hne) as (t' & s' & Hc' & Hb' & _).
    destruct (built_getRoot digest _ t s Hne Hb) as (root & Hr & Hg).
    destruct (built_getRoot digest _ t' s' Hne Hb') as (root' & Hr' & Hg').
    unfold bind. rewrite Hc, Hc', Hg, Hg'. cbn [value]. congruence.
Qed.

(** X8.  A proof has one entry for each layer below the root, and at least
    one. *)
Theorem proof_length (leaves : list Buffer) (s0 : Store) (t : MerkleTree)
        (s : Store) (e : Buffer) (proof : list Buffer) (s1 : Store) :
  constructor digest leaves s0 = Ok (t, s) ->
  getProof digest t e s = Ok (proof, s1) ->
  length (_layers t) = S (length proof) /\ 1 <= length proof.
Proof.
  intros Hc Hg.
  destruct (getProof_inv _ _ _ _ _ _ _ Hc Hg)
    as (Hne & Hb & _ & _ & i & _ & Hi & ->).
  destruct Hb as (_ & _ & Hst). apply Forall2_length in Hst.
  rewrite Hst, (length_stack_proofFrom digest _ i). split; [reflexivity|].
  pose proof (lookup_lt_Some _ _ _ Hi) as Hlt.
  pose proof (length_pad_gt1 leaves Hne) as Hgt.
  destruct (length (pad leaves)) as [|n] eqn:En; [lia|].
  cbn [proofFrom]. rewrite En.
  destruct (Nat.ltb_spec 1 (S n)); [cbn [length]; lia|lia].
Qed.

(** X9.  The number of entries of a proof is the binary logarithm of the
    length of the padded leaf layer, rounded up. *)
Theorem proof_logarithmic (leaves : list Buffer) (s0 : Store) (t : MerkleTree)
        (s : Store) (e : Buffer) (proof : list Buffer) (s1 : Store) :
  constructor digest leaves s0 = Ok (t, s) ->
  getProof digest t e s = Ok (proof, s1) ->
  length (pad leaves) <= 2 ^ length proof
  /\ 2 ^ length proof < 2 * length (pad leaves).
Proof.
  intros Hc Hg.
  destruct (getProof_inv _ _ _ _ _ _ _ Hc Hg)
    as (Hne & _ & _ & _ & i & _ & Hi & ->).
  pose proof (length_pad_gt1 leaves Hne) as Hgt.
  destruct (proofFrom_log digest (length (pad leaves)) i (pad leaves) (le_n _) Hgt).
  lia.
Qed.

End Further.

Section FurtherTree.

Variable digest : Buffer -> Buffer.
Variable buffer_le : Buffer -> Buffer -> bool.

(** X10.  [getProof] leaves every array that existed as it was: after it,
    the root is the same and every call of [getProof] returns what it would
    have returned before. *)
Theorem getProof_repeatable (leaves : list Buffer) (s0 : Store) (t : MerkleTree)
        (s : Store) (e : Buffer) (proof : list Buffer) (s1 : Store) :
  constructor digest leaves s0 = Ok (t, s) ->
  getProof digest t e s = Ok (proof, s1) ->
  (forall r a, points s r a -> points s1 r a)
  /\ (exists root, getRoot t s = Ok (root, s) /\ getRoot t s1 = Ok (root, s1))
  /\ forall e', value (getProof digest t e' s1) = value (getProof digest t e' s).
Proof.
  intros Hc Hg.
  destruct (getProof_inv digest _ _ _ _ _ _ _ Hc Hg)
    as (Hne & Hb & Hb1 & Hfr & _).
  split; [exact Hfr|]. split.
  - destruct (built_getRoot digest leaves t s Hne Hb) as (root & Hr & Hgr).
    destruct (built_getRoot digest leaves t s1 Hne Hb1) as (root' & Hr' & Hgr').
    exists root. split; [exact Hgr|]. congruence.
  - intros e'.
    now rewrite !(built_getProof_value digest leaves).
Qed.

(** X11.  The number of digests a construction computes is linear in the
    number of leaves: at least the padded number of leaves less one, at
    most twice that. *)
Theorem construction_cost (leaves : list Buffer) (s0 : Store) (t : MerkleTree)
        (s : Store) :
  constructor digest leaves s0 = Ok (t, s) ->
  digests s0 + (length (pad leaves) - 1) <= digests s
  /\ digests s <= digests s0 + (2 * length (pad leaves) - 2).
Proof.
  intros Hc. pose proof Hc as Hc'. apply constructor_inv in Hc' as [Hne _].
  destruct (constructor_spec digest leaves s0 Hne) as (t' & s' & Hc' & _ & _ & _ & Hd).
  rewrite Hc in Hc'. injection Hc' as <- <-.
  pose proof (length_pad_gt1 leaves Hne) as Hgt.
  destruct (stackDigests_bounds digest (length (pad leaves)) (pad leaves));
    lia.
Qed.

(** X12.  [getProof] computes every layer again: a call computes as many
    digests as the construction did. *)
Theorem getProof_cost (leaves : list Buffer) (s0 : Store) (t : MerkleTree)
        (s : Store) (e : Buffer) (proof : list Buffer) (s1 : Store) :
  constructor digest leaves s0 = Ok (t, s) ->
  getProof digest t e s = Ok (proof, s1) ->
  digests s1 - digests s = digests s - digests s0.
Proof.
  intros Hc Hg. pose proof Hc as Hc'. apply constructor_inv in Hc' as [Hne Hb].
  destruct (constructor_spec digest leaves s0 Hne) as (t' & s' & Hc' & _ & _ & _ & Hd).
  rewrite Hc in Hc'. injection Hc' as <- <-.
  pose proof (built_elements digest leaves t s Hb) as Hp.
  pose proof Hb as (Hidx & _).
  unfold getProof in Hg.
  destruct (_bufferElementPositionIndex t !! toHex e) as [i|]; [|discriminate].
  unfold bind, read in Hg. rewrite Hp in Hg.
  apply (getProofLoop_digests digest _ _ _ (pad leaves)) in Hg;
    [|exact Hp|apply le_n].
  lia.
Qed.

(** X13.  On a constructed tree [verify] never fails, whatever proof and
    leaf it is given; it changes no array and computes one digest for each
    entry of the proof. *)
Theorem verify_total (leaves : list Buffer) (s0 : Store) (t : MerkleTree)
        (s : Store) (proof : list Buffer) (leaf : Buffer) :
  constructor digest leaves s0 = Ok (t, s) ->
  exists b, verify digest buffer_le t proof leaf s = Ok (b, ticks (length proof) s).
Proof.
  intros Hc. apply constructor_inv in Hc as [Hne Hb].
  destruct (built_getRoot digest leaves t s Hne Hb) as (root & _ & Hgr).
  rewrite (verify_spec digest buffer_le t s proof leaf root Hgr). eauto.
Qed.

(** X14.  [verify] does not tell leaves from inner nodes: along the proof
    of an entry, every hash on the way to the root is accepted as a leaf
    with the rest of the proof; the root itself is accepted with the empty
    proof. *)
Theorem inner_nodes_verify (leaves : list Buffer) (s0 : Store) (t : MerkleTree)
        (s : Store) (e : Buffer) (proof : list Buffer) (s1 : Store) (k : nat) :
  constructor digest leaves s0 = Ok (t, s) ->
  getProof digest t e s = Ok (proof, s1) ->
  value (verify digest buffer_le t (drop k proof)
                (fold_left (hashPair digest) (take k proof) e) s1)
  = Ok true.
Proof.
  intros Hc Hg.
  destruct (getProof_inv digest _ _ _ _ _ _ _ Hc Hg)
    as (Hne & _ & Hb1 & _ & i & _ & Hi & Hproof).
  destruct (built_getRoot digest leaves t s1 Hne Hb1) as (root & Hroot & Hgr).
  pose proof (rootLayer_proofFrom digest (length (pad leaves)) (pad leaves) i e
                Hi (le_n _)) as Hfold.
  rewrite Hroot, <- Hproof in Hfold. injection Hfold as Hfold.
  rewrite (verify_spec digest buffer_le t s1 _ _ root Hgr). cbn [value].
  rewrite <- fold_left_app, take_drop, <- Hfold.
  unfold equals. now rewrite bool_decide_eq_true_2.
Qed.

(** X15.  An odd number of leaves and the same leaves followed by a
    zero-length buffer give the same tree: the same store, index, layers
    and root. *)
Theorem padded_leaves_same_tree (leaves : list Buffer) (s0 : Store) :
  length leaves mod 2 = 1 ->
  constructor digest (leaves ++ [EMPTY]) s0 = constructor digest leaves s0.
Proof.
  intros Hodd. rewrite (constructor_pad digest leaves).
  unfold pad. now rewrite Hodd.
Qed.

(** X16.  Exchanging the two leaves of a pair (positions [2k] and [2k+1])
    does not change the root. *)
Theorem root_ignores_order_in_pair (l1 l2 : list Buffer) (a b : Buffer)
        (s0 : Store) :
  Nat.even (length l1) = true ->
  exists root t1 s1 t2 s2,
    constructor digest (l1 ++ a :: b :: l2) s0 = Ok (t1, s1)
    /\ constructor digest (l1 ++ b :: a :: l2) s0 = Ok (t2, s2)
    /\ getRoot t1 s1 = Ok (root, s1)
    /\ getRoot t2 s2 = Ok (root, s2).
Proof.
  intros Hev.
  assert (Hne1 : l1 ++ a :: b :: l2 <> []) by (destruct l1; discriminate).
  assert (Hne2 : l1 ++ b :: a :: l2 <> []) by (destruct l1; discriminate).
  destruct (constructor_spec digest _ s0 Hne1) as (t1 & s1 & Hc1 & Hb1 & _).
  destruct (constructor_spec digest _ s0 Hne2) as (t2 & s2 & Hc2 & Hb2 & _).
  destruct (built_getRoot digest _ t1 s1 Hne1 Hb1) as (root & Hr1 & Hg1).
  destruct (built_getRoot digest _ t2 s2 Hne2 Hb2) as (root' & Hr2 & Hg2).
  exists root, t1, s1, t2, s2. repeat split; try assumption.
  enough (root' = root) by congruence.
  pose proof (length_pad_gt1 _ Hne1) as Hgt1.
  pose proof (length_pad_gt1 _ Hne2) as Hgt2.
  assert (Hlen : length (pad (l1 ++ b :: a :: l2)) = length (pad (l1 ++ a :: b :: l2))).
  { rewrite !length_pad, !length_app. reflexivity. }
  rewrite Hlen in Hr2.
  destruct (length (pad (l1 ++ a :: b :: l2))) as [|n] eqn:En; [lia|].
  cbn [rootLayer] in Hr1, Hr2. rewrite En in Hr1. rewrite Hlen in Hr2.
  destruct (Nat.ltb_spec 1 (S n)); [|lia].
  rewrite pad_pad in Hr1, Hr2.
  rewrite (pairs_pad_swap digest l1 l2 a b Hev) in Hr1. congruence.
Qed.


(** X18.  The first entry of a proof is the entry of the padded leaf layer
    next to the position of the leaf; every later entry is a digest or the
    zero-length buffer. *)
Theorem proof_entries (leaves : list Buffer) (s0 : Store) (t : MerkleTree)
        (s : Store) (e : Buffer) (proof : list Buffer) (s1 : Store) :
  constructor digest leaves s0 = Ok (t, s) ->
  getProof digest t e s = Ok (proof, s1) ->
  exists i first rest,
    _bufferElementPositionIndex t !! toHex e = Some i
    /\ proof = first :: rest
    /\ pad leaves !! (if Nat.even i then i + 1 else i - 1) = Some first
    /\ Forall (fun p => p = [] \/ exists x, p = digest x) rest.
Proof.
  intros Hc Hg.
  destruct (getProof_inv digest _ _ _ _ _ _ _ Hc Hg)
    as (Hne & Hb & _ & _ & i & Hidx & Hi & ->).
  pose proof (length_pad_gt1 leaves Hne) as Hgt.
  pose proof (lookup_lt_Some _ _ _ Hi) as Hlt.
  destruct Hb as (Hb & _). rewrite <- Hb in Hidx.
  destruct (length (pad leaves)) as [|n] eqn:En; [lia|].
  cbn [proofFrom]. rewrite En. destruct (Nat.ltb_spec 1 (S n)); [|lia].
  eexists i, _, _. split; [exact Hidx|]. split; [reflexivity|]. split.
  - unfold sibling.
    assert (Hj : (if Nat.even i then i + 1 else i - 1) < length (pad leaves)).
    { pose proof (length_pad_even leaves) as Hev.
      apply Nat.even_spec in Hev as [m Hm].
      destruct (Nat.even i) eqn:Ei; [|lia].
      apply Nat.even_spec in Ei as [k ->]. lia. }
    now apply lookup_default.
  - apply proofFrom_digests. eapply Forall_impl; [apply pairs_digests|].
    intros h Hh. now right.
Qed.

(** X19.  Every position the index holds is a position of the padded leaf
    layer, the last one of the buffer whose hexadecimal form is the key. *)
Theorem index_sound (leaves : list Buffer) (s0 : Store) (t : MerkleTree)
        (s : Store) (key : string) (i : nat) :
  constructor digest leaves s0 = Ok (t, s) ->
  _bufferElementPositionIndex t !! key = Some i ->
  exists e,
    toHex e = key
    /\ pad leaves !! i = Some e
    /\ forall j, i < j -> pad leaves !! j <> Some e.
Proof.
  intros Hc Hi. apply constructor_inv in Hc as [_ (Hidx & _)].
  rewrite Hidx in Hi.
  destruct (positionIndex_lookup_Some _ _ _ Hi) as (e & He & <-).
  exists e. split; [reflexivity|]. split; [exact He|].
  now apply positionIndex_Some_last.
Qed.

End FurtherTree.

(** X20.  [bufDedup] returns a sub-sequence of its argument with the same
    members, in which no two neighbours are equal. *)
Theorem bufDedup_no_repeats (l : list Buffer) :
  sublist (bufDedup l) l
  /\ (forall x, x ∈ bufDedup l <-> x ∈ l)
  /\ noEqualNeighbours (bufDedup l).
Proof.
  rewrite bufDedup_dedupFrom. split; [apply dedupFrom_sublist|]. split.
  - intros x. destruct (dedupFrom_elem l None x) as [H1 H2].
    split; [exact H1|]. intros H. destruct (H2 H) as [|]; [assumption|discriminate].
  - apply dedupFrom_neighbours.
Qed.

(** X21.  [bufDedup] removes neighbours only: an array in which no two
    neighbours are equal is returned as it is, also when it holds the same
    buffer at positions that are apart. *)
Theorem bufDedup_keeps_distant_duplicates (l : list Buffer) :
  noEqualNeighbours l -> bufDedup l = l.
Proof.
  intros H. rewrite bufDedup_dedupFrom. apply dedupFrom_fixed; [exact H|].
  discriminate.
Qed.

(** X22.  On an array sorted by [Buffer.compare], [bufDedup] returns
    pairwise distinct buffers. *)
Theorem bufDedup_sorted_NoDup (l : list Buffer) :
  Sorted bufferLe l -> NoDup (bufDedup l).
Proof.
  intros Hs. apply Sorted_StronglySorted in Hs; [|apply bufferLe_transitive].
  apply sorted_neighbours_NoDup.
  - rewrite bufDedup_dedupFrom.
    eapply sublist_sorted; [|exact Hs]. apply dedupFrom_sublist.
  - rewrite bufDedup_dedupFrom. apply dedupFrom_neighbours.
Qed.

(** X23.  [bufDedup] twice is [bufDedup] once. *)
Theorem bufDedup_idempotent (l : list Buffer) :
  bufDedup (bufDedup l) = bufDedup l.
Proof.
  rewrite (bufDedup_dedupFrom (bufDedup l)). apply dedupFrom_fixed.
  - rewrite bufDedup_dedupFrom. apply dedupFrom_neighbours.
  - discriminate.
Qed.

(** X24.  [bufArrToHexArr] on an array of buffers never fails; it returns
    as many strings as there are buffers, and different arrays give different
    results. *)
Theorem bufArrToHexArr_injective (arr : list Buffer) (s : Store) :
  (exists hs, bufArrToHexArr arr s = Ok (hs, s) /\ length hs = length arr)
  /\ forall arr' s',
       value (bufArrToHexArr arr' s') = value (bufArrToHexArr arr s) ->
       arr' = arr.
Proof.
  unfold bufArrToHexArr. rewrite existsb_never. split.
  - eexists. split; [reflexivity|]. apply length_map.
  - intros arr' s'. rewrite existsb_never. cbn [value ret].
    intros [= H]. revert arr' H.
    induction arr as [|x arr IH]; intros [|y arr']; cbn [map];
      try discriminate; [reflexivity|].
    intros [= Hx Hr]. apply toHex_inj in Hx. f_equal; auto.
Qed.

(** * The program on concrete inputs, with SHA3-256 *)

(** SHA3-256 of the empty message and of "abc" (FIPS 202 test vectors). *)
Example sha3_256_empty :
  toHex (Sha3.sha3_256 [])
  = "a7ffc6f8bf1ed76651c14756a061d662f580ff4de43b49fa82d80a4b80f8434a"%string.
Proof. vm_compute. reflexivity. Qed.

Example sha3_256_abc :
  toHex (Sha3.sha3_256 ["a"%byte; "b"%byte; "c"%byte])
  = "3a985da74fe225b2045c172d6bd390bd855f086e3e9d525b46bfe24511431532"%string.
Proof. vm_compute. reflexivity. Qed.

(** [bufDedup] drops an entry equal to the one before it. *)
Example bufDedup_1_1_2_1 :
  bufDedup [oneByte 1; oneByte 1; oneByte 2; oneByte 1]
  = [oneByte 1; oneByte 2; oneByte 1].
Proof. reflexivity. Qed.

(** C2 as stated fails: the root of the tree of the single leaf 0x01 is the
    digest of the leaf, not the leaf, and one digest was computed. *)
Lemma single_leaf_root_is_hashed :
  exists t s,
    constructor Sha3.sha3_256 [oneByte 1] init = Ok (t, s)
    /\ getRoot t s = Ok (Sha3.sha3_256 (oneByte 1), s)
    /\ Sha3.sha3_256 (oneByte 1) <> oneByte 1
    /\ digests s = 1.
Proof.
  eexists _, _. split; [vm_compute; reflexivity|].
  split; [vm_compute; reflexivity|].
  split; [vm_compute; discriminate|reflexivity].
Qed.

(** C3 as stated fails: in one store, with the same proof and the same leaf,
    [verify] answers [true] on one tree and [false] on another. *)
Lemma verify_depends_on_the_tree :
  exists t1 s1 t2 s2,
    constructor Sha3.sha3_256 [oneByte 1] init = Ok (t1, s1)
    /\ constructor Sha3.sha3_256 [oneByte 2] s1 = Ok (t2, s2)
    /\ value (verify Sha3.sha3_256 compare_le t1 [EMPTY] (oneByte 1) s2) = Ok true
    /\ value (verify Sha3.sha3_256 compare_le t2 [EMPTY] (oneByte 1) s2) = Ok false.
Proof.
  eexists _, _, _, _. split; [vm_compute; reflexivity|].
  split; [vm_compute; reflexivity|].
  split; vm_compute; reflexivity.
Qed.

Lemma verify_compares_with_own_root_witness :
  exists t s root,
    constructor Sha3.sha3_256 leaves_1_2_3 init = Ok (t, s)
    /\ getRoot t s = Ok (root, s)
    /\ value (verify Sha3.sha3_256 compare_le t [oneByte 1] (oneByte 2) s)
       = Ok (equals (fold_left (hashPair Sha3.sha3_256) [oneByte 1] (oneByte 2)) root).
Proof.
  eexists _, _, _. split; [vm_compute; reflexivity|].
  split; [vm_compute; reflexivity|].
  apply (verify_compares_with_own_root Sha3.sha3_256 compare_le).
  vm_compute. reflexivity.
Defined.

(** C4 as stated fails: for the buffer 0x01, the pair hashing of [verify]
    with the sentinel and the single-sided hashing give the same digest. *)
Lemma sentinel_pair_same_digest :
  value (verifyLoop Sha3.sha3_256 compare_le [EMPTY] (oneByte 1) init)
  = value (combinedHash Sha3.sha3_256 (Some (oneByte 1)) None init)
  /\ oneByte 1 <> [].
Proof. split; [vm_compute; reflexivity|discriminate]. Qed.

Lemma getProof_not_found_witness :
  exists t s,
    constructor Sha3.sha3_256 leaves_1_2_3 init = Ok (t, s)
    /\ (getProof Sha3.sha3_256 t (oneByte 9) s = Err NotFound
        <-> _bufferElementPositionIndex t !! toHex (oneByte 9) = None)
    /\ (_bufferElementPositionIndex t !! toHex (oneByte 9) = None
        <-> oneByte 9 ∉ pad leaves_1_2_3)
    /\ (getProof Sha3.sha3_256 t (oneByte 9) s = Err NotFound
        \/ exists proof s', getProof Sha3.sha3_256 t (oneByte 9) s = Ok (proof, s')).
Proof.
  eexists _, _. split; [vm_compute; reflexivity|].
  apply (getProof_not_found Sha3.sha3_256 leaves_1_2_3 init).
  vm_compute. reflexivity.
Defined.

Lemma last_position_wins_witness :
  exists t s,
    constructor Sha3.sha3_256 [oneByte 1; oneByte 1] init = Ok (t, s)
    /\ _bufferElementPositionIndex t !! toHex (oneByte 1) = Some 1
    /\ getProof Sha3.sha3_256 t (oneByte 1) s
       = getProofLoop Sha3.sha3_256 (length (pad [oneByte 1; oneByte 1])) 1
                      (_elements t) [] s
    /\ value (getProof Sha3.sha3_256 t (oneByte 1) s)
       = Ok (proofFrom Sha3.sha3_256 (length (pad [oneByte 1; oneByte 1])) 1
                       (pad [oneByte 1; oneByte 1])).
Proof.
  eexists _, _. split; [vm_compute; reflexivity|].
  apply (last_position_wins Sha3.sha3_256 [oneByte 1; oneByte 1] init).
  - vm_compute. reflexivity.
  - reflexivity.
  - intros [|[|j]] Hj; [lia|lia|discriminate].
Defined.

(** C8 as stated fails: with six leaves the layers have the lengths 6, 4, 2
    and 1, and 4 is not half of 6 rounded up. *)
Lemma six_leaves_layer_lengths :
  exists t s,
    constructor Sha3.sha3_256 six_leaves init = Ok (t, s)
    /\ layerLengths t s = [6; 4; 2; 1]
    /\ 4 <> (6 + 1) / 2.
Proof.
  eexists _, _. split; [vm_compute; reflexivity|].
  split; [vm_compute; reflexivity|discriminate].
Qed.

Lemma layer_stack_lengths_witness :
  exists t s,
    constructor Sha3.sha3_256 six_leaves init = Ok (t, s)
    /\ layerLengths t s !! 0 = Some (length six_leaves + length six_leaves mod 2)
    /\ last (layerLengths t s) = Some 1
    /\ forall k n m,
         layerLengths t s !! k = Some n ->
         layerLengths t s !! S k = Some m ->
         Nat.even n = true /\ m = halfPadded n.
Proof.
  eexists _, _. split; [vm_compute; reflexivity|].
  apply (layer_stack_lengths Sha3.sha3_256 six_leaves init).
  vm_compute. reflexivity.
Defined.

(** C9 as stated fails: the hexadecimal form of the root of the tree of the
    single leaf 0x01 does not start with "0x". *)
Lemma hex_root_has_no_prefix :
  exists t s,
    constructor Sha3.sha3_256 [oneByte 1] init = Ok (t, s)
    /\ value (getHexRoot t s)
       = Ok "2767f15c8af2f2c7225d5273fdd683edc714110a987d1054697c348aed4e6cc7"%string
    /\ startsWith "0x"
         "2767f15c8af2f2c7225d5273fdd683edc714110a987d1054697c348aed4e6cc7" = false.
Proof.
  eexists _, _. split; [vm_compute; reflexivity|].
  split; [vm_compute; reflexivity|reflexivity].
Qed.

Lemma hex_forms_witness :
  exists t s,
    constructor Sha3.sha3_256 leaves_1_2_3 init = Ok (t, s)
    /\ (exists root,
           getRoot t s = Ok (root, s)
           /\ getHexRoot t s = Ok (toHex root, s)
           /\ lowerHex (toHex root) = true
           /\ startsWith "0x" (toHex root) = false)
    /\ match getHexProof Sha3.sha3_256 t (oneByte 2) s with
       | Ok (hs, _) => forallb prefixedLowerHex hs = true
       | Err err => err = NotFound
       end.
Proof.
  eexists _, _. split; [vm_compute; reflexivity|].
  apply (hex_forms Sha3.sha3_256 leaves_1_2_3 init).
  vm_compute. reflexivity.
Defined.

Lemma sentinel_is_retrievable_witness :
  length leaves_1_2_3 mod 2 = 1
  /\ exists t s,
      constructor Sha3.sha3_256 leaves_1_2_3 init = Ok (t, s)
      /\ toHex EMPTY = EmptyString
      /\ _bufferElementPositionIndex t !! EmptyString = Some (length leaves_1_2_3)
      /\ exists proof s', getProof Sha3.sha3_256 t EMPTY s = Ok (proof, s').
Proof.
  split; [reflexivity|].
  apply (sentinel_is_retrievable Sha3.sha3_256 leaves_1_2_3 init).
  reflexivity.
Defined.

(** The scenario of the leaves 0x01, 0x02, 0x03: they are padded to
    [01, 02, 03, ""], and the proof of 0x02 verifies. *)
Example scenario_1_2_3 :
  exists t s proof s1,
    constructor Sha3.sha3_256 leaves_1_2_3 init = Ok (t, s)
    /\ arrays s !! _elements t = Some [oneByte 1; oneByte 2; oneByte 3; EMPTY]
    /\ getProof Sha3.sha3_256 t (oneByte 2) s = Ok (proof, s1)
    /\ proof = [oneByte 1; Sha3.sha3_256 (oneByte 3)]
    /\ value (verify Sha3.sha3_256 compare_le t proof (oneByte 2) s1) = Ok true.
Proof.
  eexists _, _, _, _. split; [vm_compute; reflexivity|].
  split; [vm_compute; reflexivity|].
  split; [vm_compute; reflexivity|].
  split; vm_compute; reflexivity.
Qed.

(** * The further properties on concrete inputs *)

(** Runs the constructor and [getProof] on the concrete input of a goal
    [C /\ G /\ _]. *)
Ltac run_getProof Hc Hg :=
  match goal with
  | |- ?C /\ ?G /\ _ =>
      assert (Hc : C) by (vm_compute; reflexivity);
      assert (Hg : G) by (vm_compute; reflexivity)
  end.

(** Runs the constructor on the concrete input of a goal [C /\ _]. *)
Ltac run_constructor Hc :=
  match goal with
  | |- ?C /\ _ => assert (Hc : C) by (vm_compute; reflexivity)
  end.


Lemma sortAndConcat_order_independent_witness :
  [oneByte 3; oneByte 1; oneByte 2] ≡ₚ [oneByte 1; oneByte 2; oneByte 3]
  /\ sortAndConcat [oneByte 3; oneByte 1; oneByte 2]
     = sortAndConcat [oneByte 1; oneByte 2; oneByte 3].
Proof.
  assert (H : [oneByte 3; oneByte 1; oneByte 2] ≡ₚ [oneByte 1; oneByte 2; oneByte 3])
    by apply (Permutation_cons_append [oneByte 1; oneByte 2] (oneByte 3)).
  split; [exact H|].
  exact (sortAndConcat_order_independent _ _ H).
Defined.

Lemma getPairElement_sibling_witness :
  leaves_1_2_3 !! 1 = Some (oneByte 2)
  /\ exists o,
      getPairElement 1 leaves_1_2_3 init = Ok (o, init)
      /\ (o = None <-> Nat.even 1 = true /\ 2 = length leaves_1_2_3)
      /\ forall p, o = Some p ->
           exists j, leaves_1_2_3 !! j = Some p /\ j <> 1 /\ j / 2 = 1 / 2
                     /\ getPairElement j leaves_1_2_3 init
                        = Ok (Some (oneByte 2), init).
Proof.
  split; [reflexivity|].
  apply (getPairElement_sibling 1 leaves_1_2_3 init (oneByte 2)).
  reflexivity.
Defined.

Lemma getNextLayer_effect_witness :
  points (mkStore [leaves_1_2_3] 0) 0 leaves_1_2_3
  /\ exists next above s',
      getNextLayer Sha3.sha3_256 0 (mkStore [leaves_1_2_3] 0) = Ok (next, s')
      /\ arrays (mkStore [leaves_1_2_3] 0) !! next = None
      /\ points s' next above
      /\ points s' 0 (if Nat.odd (length leaves_1_2_3)
                      then leaves_1_2_3 ++ [EMPTY] else leaves_1_2_3)
      /\ 2 * length above = length leaves_1_2_3 + length leaves_1_2_3 mod 2
      /\ (forall k a b,
            pad leaves_1_2_3 !! (2 * k) = Some a ->
            pad leaves_1_2_3 !! (2 * k + 1) = Some b ->
            above !! k = Some (Sha3.sha3_256 (sortAndConcat [a; b])))
      /\ (forall r' a, r' <> 0 -> points (mkStore [leaves_1_2_3] 0) r' a ->
                       points s' r' a)
      /\ digests s' = digests (mkStore [leaves_1_2_3] 0) + length above.
Proof.
  split; [reflexivity|].
  apply (getNextLayer_effect Sha3.sha3_256 0 leaves_1_2_3 (mkStore [leaves_1_2_3] 0)).
  reflexivity.
Defined.

Lemma getLayers_on_array_witness :
  points (mkStore [leaves_1_2_3] 0) 0 leaves_1_2_3
  /\ leaves_1_2_3 <> []
  /\ exists news s' root,
      getLayers Sha3.sha3_256 0 (mkStore [leaves_1_2_3] 0) = Ok (0 :: news, s')
      /\ Forall2 (points s') (0 :: news)
                 (stack Sha3.sha3_256 (length leaves_1_2_3) leaves_1_2_3)
      /\ last (stack Sha3.sha3_256 (length leaves_1_2_3) leaves_1_2_3) = Some [root]
      /\ (forall r' a, r' <> 0 -> points (mkStore [leaves_1_2_3] 0) r' a ->
                       points s' r' a).
Proof.
  split; [reflexivity|]. split; [discriminate|].
  apply (getLayers_on_array Sha3.sha3_256 0 leaves_1_2_3 (mkStore [leaves_1_2_3] 0));
    [reflexivity|discriminate].
Defined.

Lemma getLayers_short_witness :
  points (mkStore [[oneByte 1]] 0) 0 [oneByte 1]
  /\ length [oneByte 1] <= 1
  /\ getLayers Sha3.sha3_256 0 (mkStore [[oneByte 1]] 0)
     = Ok ([0], mkStore [[oneByte 1]] 0).
Proof.
  split; [reflexivity|]. split; [apply le_n|].
  apply (getLayers_short Sha3.sha3_256 0 [oneByte 1] (mkStore [[oneByte 1]] 0));
    [reflexivity|apply le_n].
Defined.

Lemma proof_length_witness :
  exists t s proof s1,
    constructor Sha3.sha3_256 leaves_1_2_3 init = Ok (t, s)
    /\ getProof Sha3.sha3_256 t (oneByte 2) s = Ok (proof, s1)
    /\ length (_layers t) = S (length proof) /\ 1 <= length proof.
Proof.
  eexists _, _, _, _. run_getProof Hc Hg.
  exact (conj Hc (conj Hg (proof_length _ _ _ _ _ _ _ _ Hc Hg))).
Defined.

Lemma proof_logarithmic_witness :
  exists t s proof s1,
    constructor Sha3.sha3_256 six_leaves init = Ok (t, s)
    /\ getProof Sha3.sha3_256 t (oneByte 5) s = Ok (proof, s1)
    /\ length (pad six_leaves) <= 2 ^ length proof
    /\ 2 ^ length proof < 2 * length (pad six_leaves).
Proof.
  eexists _, _, _, _. run_getProof Hc Hg.
  exact (conj Hc (conj Hg (proof_logarithmic _ _ _ _ _ _ _ _ Hc Hg))).
Defined.

Lemma getProof_repeatable_witness :
  exists t s proof s1,
    constructor Sha3.sha3_256 leaves_1_2_3 init = Ok (t, s)
    /\ getProof Sha3.sha3_256 t (oneByte 2) s = Ok (proof, s1)
    /\ (forall r a, points s r a -> points s1 r a)
    /\ (exists root, getRoot t s = Ok (root, s) /\ getRoot t s1 = Ok (root, s1))
    /\ forall e', value (getProof Sha3.sha3_256 t e' s1)
                  = value (getProof Sha3.sha3_256 t e' s).
Proof.
  eexists _, _, _, _. run_getProof Hc Hg.
  exact (conj Hc (conj Hg (getProof_repeatable _ _ _ _ _ _ _ _ Hc Hg))).
Defined.

Lemma construction_cost_witness :
  exists t s,
    constructor Sha3.sha3_256 six_leaves init = Ok (t, s)
    /\ digests init + (length (pad six_leaves) - 1) <= digests s
    /\ digests s <= digests init + (2 * length (pad six_leaves) - 2).
Proof.
  eexists _, _. run_constructor Hc.
  exact (conj Hc (construction_cost _ _ _ _ _ Hc)).
Defined.

Lemma getProof_cost_witness :
  exists t s proof s1,
    constructor Sha3.sha3_256 six_leaves init = Ok (t, s)
    /\ getProof Sha3.sha3_256 t (oneByte 5) s = Ok (proof, s1)
    /\ digests s1 - digests s = digests s - digests init.
Proof.
  eexists _, _, _, _. run_getProof Hc Hg.
  exact (conj Hc (conj Hg (getProof_cost _ _ _ _ _ _ _ _ Hc Hg))).
Defined.

Lemma verify_total_witness :
  exists t s,
    constructor Sha3.sha3_256 leaves_1_2_3 init = Ok (t, s)
    /\ exists b,
         verify Sha3.sha3_256 compare_le t [oneByte 7; EMPTY] (oneByte 9) s
         = Ok (b, ticks (length [oneByte 7; EMPTY]) s).
Proof.
  eexists _, _. run_constructor Hc.
  exact (conj Hc (verify_total _ compare_le _ _ _ _ _ _ Hc)).
Defined.

Lemma inner_nodes_verify_witness :
  exists t s proof s1,
    constructor Sha3.sha3_256 leaves_1_2_3 init = Ok (t, s)
    /\ getProof Sha3.sha3_256 t (oneByte 2) s = Ok (proof, s1)
    /\ value (verify Sha3.sha3_256 compare_le t (drop 1 proof)
                     (fold_left (hashPair Sha3.sha3_256) (take 1 proof) (oneByte 2))
                     s1)
       = Ok true.
Proof.
  eexists _, _, _, _. run_getProof Hc Hg.
  exact (conj Hc (conj Hg (inner_nodes_verify _ compare_le _ _ _ _ _ _ _ 1 Hc Hg))).
Defined.

Lemma padded_leaves_same_tree_witness :
  length leaves_1_2_3 mod 2 = 1
  /\ constructor Sha3.sha3_256 (leaves_1_2_3 ++ [EMPTY]) init
     = constructor Sha3.sha3_256 leaves_1_2_3 init.
Proof.
  split; [reflexivity|].
  apply (padded_leaves_same_tree Sha3.sha3_256 leaves_1_2_3 init).
  reflexivity.
Defined.

Lemma root_ignores_order_in_pair_witness :
  Nat.even (length [oneByte 1; oneByte 2]) = true
  /\ exists root t1 s1 t2 s2,
      constructor Sha3.sha3_256
                  ([oneByte 1; oneByte 2] ++ oneByte 3 :: oneByte 4 :: [oneByte 5]) init
      = Ok (t1, s1)
      /\ constructor Sha3.sha3_256
                     ([oneByte 1; oneByte 2] ++ oneByte 4 :: oneByte 3 :: [oneByte 5]) init
         = Ok (t2, s2)
      /\ getRoot t1 s1 = Ok (root, s1)
      /\ getRoot t2 s2 = Ok (root, s2).
Proof.
  split; [reflexivity|].
  apply (root_ignores_order_in_pair Sha3.sha3_256 [oneByte 1; oneByte 2]
           [oneByte 5] (oneByte 3) (oneByte 4) init).
  reflexivity.
Defined.


Lemma proof_entries_witness :
  exists t s proof s1,
    constructor Sha3.sha3_256 six_leaves init = Ok (t, s)
    /\ getProof Sha3.sha3_256 t (oneByte 5) s = Ok (proof, s1)
    /\ exists i first rest,
         _bufferElementPositionIndex t !! toHex (oneByte 5) = Some i
         /\ proof = first :: rest
         /\ pad six_leaves !! (if Nat.even i then i + 1 else i - 1) = Some first
         /\ Forall (fun p => p = [] \/ exists x, p = Sha3.sha3_256 x) rest.
Proof.
  eexists _, _, _, _. run_getProof Hc Hg.
  exact (conj Hc (conj Hg (proof_entries _ _ _ _ _ _ _ _ Hc Hg))).
Defined.

Lemma index_sound_witness :
  exists t s,
    constructor Sha3.sha3_256 [oneByte 1; oneByte 1] init = Ok (t, s)
    /\ _bufferElementPositionIndex t !! "01"%string = Some 1
    /\ exists e,
         toHex e = "01"%string
         /\ pad [oneByte 1; oneByte 1] !! 1 = Some e
         /\ forall j, 1 < j -> pad [oneByte 1; oneByte 1] !! j <> Some e.
Proof.
  eexists _, _. run_getProof Hc Hi.
  exact (conj Hc (conj Hi (index_sound _ _ _ _ _ _ _ Hc Hi))).
Defined.

Lemma bufDedup_keeps_distant_duplicates_witness :
  noEqualNeighbours [oneByte 1; oneByte 2; oneByte 1]
  /\ bufDedup [oneByte 1; oneByte 2; oneByte 1] = [oneByte 1; oneByte 2; oneByte 1].
Proof.
  assert (H : noEqualNeighbours [oneByte 1; oneByte 2; oneByte 1]).
  { intros i x y Hx Hy. destruct i as [|[|[|i]]]; try discriminate;
      injection Hx as <-; injection Hy as <-; discriminate. }
  split; [exact H|].
  exact (bufDedup_keeps_distant_duplicates _ H).
Defined.

Lemma bufDedup_sorted_NoDup_witness :
  Sorted bufferLe [oneByte 1; oneByte 1; oneByte 2]
  /\ NoDup (bufDedup [oneByte 1; oneByte 1; oneByte 2]).
Proof.
  assert (H : Sorted bufferLe [oneByte 1; oneByte 1; oneByte 2]).
  { repeat constructor; unfold bufferLe; vm_compute; discriminate. }
  split; [exact H|].
  exact (bufDedup_sorted_NoDup _ H).
Defined.
